(** * SSD meta-architecture: target assignment, losses and per-image inference

    A shallow embedding of [detectron2/modeling/meta_arch/ssd.py]:
    [SSD.losses], [SSD.get_ground_truth] and [SSD.inference_single_image].

    Tensors are lists.  A 1-D tensor of shape (n) is a list of length n, a
    2-D tensor of shape (n, m) a list of n rows of length m.  Integer
    tensors hold [Z], boolean masks hold [bool], floating tensors hold exact
    rationals [Q] compared with [==]; rounding is not modelled.

    Functions of torch and fvcore ([F.cross_entropy], [F.softmax],
    [Tensor.argsort], [Tensor.sort], [sigmoid_focal_loss_jit],
    [smooth_l1_loss]) and the collaborators of the class that live in other
    files ([Matcher], [Box2BoxTransform], [batched_nms]) are parameters of the
    sections below; a theorem assumes about them only what it names. *)

From Stdlib Require Import List Bool Arith ZArith QArith Lia.
From Stdlib Require Import Permutation Sorted.
Import ListNotations.

Set Implicit Arguments.

(** ** Tensor primitives *)

Module Tensor.

(** [x.sum()] of a floating tensor. *)
Definition Qsum (l : list Q) : Q := fold_right Qplus 0 l.

(** [mask.sum()] of a boolean mask. *)
Definition count_true (mask : list bool) : nat :=
  length (filter (fun b => b) mask).

(** [x[mask]]: the entries of [x] where [mask] holds, in order. *)
Fixpoint masked_select {A} (mask : list bool) (x : list A) : list A :=
  match mask, x with
  | b :: mask', a :: x' =>
      if b then a :: masked_select mask' x' else masked_select mask' x'
  | _, _ => []
  end.

(** [x[mask] = vals]: the entries of [x] where [mask] holds are replaced, in
    order, by the entries of [vals]; torch raises when [vals] has another
    length than the mask has true entries, here the entry is then kept. *)
Fixpoint masked_assign {A} (mask : list bool) (x vals : list A) : list A :=
  match mask, x with
  | b :: mask', a :: x' =>
      if b then
        match vals with
        | v :: vals' => v :: masked_assign mask' x' vals'
        | [] => a :: masked_assign mask' x' []
        end
      else a :: masked_assign mask' x' vals
  | _, _ => x
  end.

(** [x[mask] = c] for a scalar [c]. *)
Fixpoint masked_fill {A} (mask : list bool) (x : list A) (c : A) : list A :=
  match mask, x with
  | b :: mask', a :: x' => (if b then c else a) :: masked_fill mask' x' c
  | _, _ => x
  end.

(** Elementwise operations on tensors of one shape. *)
Fixpoint map2 {A B C} (f : A -> B -> C) (x : list A) (y : list B) : list C :=
  match x, y with
  | a :: x', b :: y' => f a b :: map2 f x' y'
  | _, _ => []
  end.

(** The first [n] rows of length [m] of a flat tensor. *)
Fixpoint rows_of {A} (n m : nat) (x : list A) : list (list A) :=
  match n with
  | O => []
  | S n' => firstn m x :: rows_of n' m (skipn m x)
  end.

(** [x.view(n, -1)]: [n] rows of length [len(x) / n]. *)
Definition view_rows {A} (n : nat) (x : list A) : list (list A) :=
  rows_of n (length x / n) x.

(** [x.view(-1)] and [x.flatten()] of a 2-D tensor. *)
Definition flatten {A} (x : list (list A)) : list A := concat x.

(** [x[i] = v] at an index; out of range the tensor is left as it is (torch
    raises there). *)
Fixpoint set_nth {A} (i : nat) (v : A) (x : list A) : list A :=
  match x, i with
  | [], _ => []
  | _ :: x', O => v :: x'
  | a :: x', S i' => a :: set_nth i' v x'
  end.

(** [max(1, n)] as the divisor of a loss. *)
Definition max1 (n : nat) : Q := inject_Z (Z.of_nat (Nat.max 1 n)).

(** What [Tensor.argsort] returns for a row [l]: a permutation [p] of the
    indices of [l] that lists the entries of [l] in ascending order.  The
    order among equal entries is not fixed. *)
Definition argsort_of A (le : A -> A -> Prop) (d : A) (l : list A) (p : list nat) : Prop :=
  Permutation p (seq 0 (length l)) /\ Sorted le (map (fun i => nth i l d) p).

(** [x < 0] on a floating entry. *)
Definition is_negative (x : Q) : bool := negb (Qle_bool 0 x).

(** The order of a tensor sorted with [descending=True]. *)
Definition descending (x y : Q) : Prop := y <= x.

(** One mask selects no more than another. *)
Definition mask_le (x y : list bool) : Prop :=
  Forall2 (fun a b : bool => a = true -> b = true) x y.

End Tensor.
Import Tensor.

(** ** The model *)

(** [cfg.MODEL.SSD.LOSS_NAME], asserted to be one of the two. *)
Inductive loss_name_t : Type := Focal | Multibox.

(** The dict returned by [SSD.losses]. *)
Record loss_dict : Type := { loss_cls : Q; loss_box_reg : Q }.

Section SSD.

(** Configuration read in [SSD.__init__]. *)
Variable num_classes : nat.
Variable loss_name : loss_name_t.
Variable focal_loss_alpha focal_loss_gamma : Q.
Variable multibox_loss_neg_pos_ratio : Z.
Variable smooth_l1_loss_beta : Q.

(** Elementwise kernels of the library losses:
    [F.cross_entropy(reduction='none')] of one row of logits and its target,
    [sigmoid_focal_loss_jit] and [smooth_l1_loss] of one input and target. *)
Variable cross_entropy : list Q -> Z -> Q.
Variable sigmoid_focal_loss : Q -> Q -> Q -> Q -> Q.
Variable smooth_l1 : Q -> Q -> Q -> Q.

(** [Tensor.argsort(axis=-1)] on a floating and on an integer row. *)
Variable argsort_float : list Q -> list nat.
Variable argsort_long : list nat -> list nat.

Definition K : Z := Z.of_nat num_classes.

(** [gt_classes >= 0], [(gt_classes >= 0) & (gt_classes != num_classes)] and
    [gt_classes == num_classes]. *)
Definition valid_idxs (gt_classes : list Z) : list bool :=
  map (fun c => 0 <=? c)%Z gt_classes.
Definition foreground_idxs (gt_classes : list Z) : list bool :=
  map (fun c => (0 <=? c)%Z && negb (c =? K)%Z) gt_classes.
Definition background_idxs (gt_classes : list Z) : list bool :=
  map (fun c => (c =? K)%Z) gt_classes.

(** [sigmoid_focal_loss_jit(inputs, targets, alpha, gamma, reduction="sum")] *)
Definition sigmoid_focal_loss_jit (inputs targets : list (list Q)) : Q :=
  Qsum (flatten (map2 (map2 (sigmoid_focal_loss focal_loss_alpha focal_loss_gamma))
                      inputs targets)).

(** [smooth_l1_loss(input, target, beta, reduction="sum")] *)
Definition smooth_l1_loss (input target : list (list Q)) : Q :=
  Qsum (flatten (map2 (map2 (smooth_l1 smooth_l1_loss_beta)) input target)).

(** [gt_classes_target = torch.zeros_like(pred_class_logits)] followed by
    [gt_classes_target[valid_idxs, gt_classes[valid_idxs]] = 1]: in the row of
    every valid anchor the column of its class target is set to 1. *)
Definition gt_classes_target (pred_class_logits : list (list Q))
    (gt_classes : list Z) : list (list Q) :=
  map2 (fun row c =>
          let zeros := map (fun _ => 0) row in
          if (0 <=? c)%Z then set_nth (Z.to_nat c) 1 zeros else zeros)
       pred_class_logits gt_classes.

(** The Focal branch of [SSD.losses]. *)
Definition focal_loss_cls (pred_class_logits : list (list Q))
    (gt_classes : list Z) : Q :=
  let valid := valid_idxs gt_classes in
  let target := gt_classes_target pred_class_logits gt_classes in
  sigmoid_focal_loss_jit (masked_select valid pred_class_logits)
                         (masked_select valid target)
  / max1 (count_true (foreground_idxs gt_classes)).

(** [softmax_ce] scattered into [loss_for_all_indices]. *)
Definition loss_for_all_indices (pred_class_logits : list (list Q))
    (gt_classes : list Z) : list Q :=
  let valid := valid_idxs gt_classes in
  let softmax_ce := map2 cross_entropy (masked_select valid pred_class_logits)
                         (masked_select valid gt_classes) in
  masked_assign valid (map (fun _ => 0) pred_class_logits) softmax_ce.

(** [loss_for_neg_indices], before it is viewed as (batch_size, -1). *)
Definition loss_for_neg_indices (pred_class_logits : list (list Q))
    (gt_classes : list Z) : list Q :=
  let all := loss_for_all_indices pred_class_logits gt_classes in
  let background := background_idxs gt_classes in
  masked_assign background (map (fun _ => 0) all) (masked_select background all).

(** [(-row).argsort().argsort()]: the position of every entry of the row in
    the row sorted by descending loss. *)
Definition rank_row (row : list Q) : list nat :=
  argsort_long (argsort_float (map Qopp row)).

(** [rank < neg_pos_ratio * num_foreground_per_img] on one row. *)
Definition hard_negative_row (rank : list nat) (num_foreground_img : nat) : list bool :=
  map (fun r => (Z.of_nat r <? multibox_loss_neg_pos_ratio * Z.of_nat num_foreground_img)%Z)
      rank.

(** The mask [hard_negative] after [hard_negative & background_idxs]. *)
Definition hard_negative (batch_size : nat) (pred_class_logits : list (list Q))
    (gt_classes : list Z) : list bool :=
  let neg := view_rows batch_size (loss_for_neg_indices pred_class_logits gt_classes) in
  let rank := map rank_row neg in
  let num_foreground_per_img :=
    map count_true (view_rows batch_size (foreground_idxs gt_classes)) in
  let hn := flatten (map2 hard_negative_row rank num_foreground_per_img) in
  map2 andb hn (background_idxs gt_classes).

(** [loss_for_all_indices] after
    [loss_for_all_indices[~(hard_negative | foreground_idxs)] = 0]. *)
Definition mined_loss (batch_size : nat) (pred_class_logits : list (list Q))
    (gt_classes : list Z) : list Q :=
  let keep := map2 orb (hard_negative batch_size pred_class_logits gt_classes)
                   (foreground_idxs gt_classes) in
  masked_fill (map negb keep) (loss_for_all_indices pred_class_logits gt_classes) 0.

(** The Multibox branch of [SSD.losses]. *)
Definition multibox_loss_cls (batch_size : nat) (pred_class_logits : list (list Q))
    (gt_classes : list Z) : Q :=
  Qsum (masked_select (valid_idxs gt_classes)
                      (mined_loss batch_size pred_class_logits gt_classes))
  / max1 (count_true (foreground_idxs gt_classes)).

(** The regression loss shared by both branches. *)
Definition box_reg_loss (pred_anchor_deltas gt_anchors_deltas : list (list Q))
    (gt_classes : list Z) : Q :=
  let fg := foreground_idxs gt_classes in
  smooth_l1_loss (masked_select fg pred_anchor_deltas)
                 (masked_select fg gt_anchors_deltas)
  / max1 (count_true fg).

(** [SSD.losses].  [gt_classes] has shape (N, R) and [gt_anchors_deltas]
    shape (N, R, 4); [pred_class_logits] (N x R rows of K+1 logits) and
    [pred_anchor_deltas] (N x R rows of 4) are the two tensors returned by
    [permute_all_cls_and_box_to_N_HWA_K_and_concat], and [batch_size] is N. *)
Definition losses (batch_size : nat)
    (gt_classes : list (list Z)) (gt_anchors_deltas : list (list (list Q)))
    (pred_class_logits pred_anchor_deltas : list (list Q)) : loss_dict :=
  let gt_classes := flatten gt_classes in
  let gt_anchors_deltas := flatten gt_anchors_deltas in
  {| loss_cls :=
       match loss_name with
       | Focal => focal_loss_cls pred_class_logits gt_classes
       | Multibox => multibox_loss_cls batch_size pred_class_logits gt_classes
       end;
     loss_box_reg := box_reg_loss pred_anchor_deltas gt_anchors_deltas gt_classes |}.

(** The cross-entropy of every anchor against its class target. *)
Definition per_anchor_ce (pred_class_logits : list (list Q)) (gt_classes : list Z)
    : list Q :=
  map2 cross_entropy pred_class_logits gt_classes.

(** The anchors that enter the Multibox sum: [hard_negative | foreground_idxs]. *)
Definition selected (batch_size : nat) (pred_class_logits : list (list Q))
    (gt_classes : list Z) : list bool :=
  map2 orb (hard_negative batch_size pred_class_logits gt_classes)
       (foreground_idxs gt_classes).

(** [hard_negative] restricted to the anchors of one image. *)
Definition hard_negative_image (pred_img : list (list Q)) (gt_img : list Z) : list bool :=
  map2 andb
       (hard_negative_row (rank_row (loss_for_neg_indices pred_img gt_img))
                          (count_true (foreground_idxs gt_img)))
       (background_idxs gt_img).

(** The smooth-L1 loss of every anchor: the sum over its 4 deltas. *)
Definition per_anchor_smooth_l1 (pred_anchor_deltas gt_anchors_deltas : list (list Q))
    : list Q :=
  map2 (fun p t => Qsum (map2 (smooth_l1 smooth_l1_loss_beta) p t))
       pred_anchor_deltas gt_anchors_deltas.

(** ** Target assignment *)

(** A 2-D floating tensor together with its second dimension, which a tensor
    of shape (0, R) still has. *)
Record matrix : Type := { ncols : nat; data : list (list Q) }.

(** The fields of an [Instances] read by [get_ground_truth]; both have one
    entry per ground-truth instance. *)
Record instances : Type := { gt_boxes : list (list Q); gt_classes_of : list Z }.

(** [x[idxs]] for an integer index tensor: [None] where torch raises
    IndexError. *)
Fixpoint index_select {A} (x : list A) (idxs : list nat) : option (list A) :=
  match idxs with
  | [] => Some []
  | i :: idxs' =>
      match nth_error x i, index_select x idxs' with
      | Some a, Some r => Some (a :: r)
      | _, _ => None
      end
  end.

(** [pairwise_iou], the [Matcher] built in [SSD.__init__] (it returns
    [gt_matched_idxs] and [anchor_labels]) and [Box2BoxTransform.get_deltas]. *)
Variable pairwise_iou : list (list Q) -> list (list Q) -> matrix.
Variable matcher : matrix -> list nat * list Z.
Variable get_deltas : list (list Q) -> list (list Q) -> list (list Q).

(** The body of the loop of [SSD.get_ground_truth] for one image:
    [(gt_classes_i, gt_anchors_reg_deltas_i)]. *)
Definition get_ground_truth_image (anchors_per_image : list (list Q))
    (targets_per_image : instances) : option (list Z * list (list Q)) :=
  let match_quality_matrix :=
    pairwise_iou (gt_boxes targets_per_image) anchors_per_image in
  let '(gt_matched_idxs, anchor_labels) := matcher match_quality_matrix in
  let has_gt := (0 <? length (gt_boxes targets_per_image))%nat in
  if has_gt then
    match index_select (gt_boxes targets_per_image) gt_matched_idxs,
          index_select (gt_classes_of targets_per_image) gt_matched_idxs with
    | Some matched_gt_boxes, Some gt_classes_i =>
        let gt_anchors_reg_deltas_i := get_deltas anchors_per_image matched_gt_boxes in
        let gt_classes_i :=
          masked_fill (map (fun l => (l =? 0)%Z) anchor_labels) gt_classes_i K in
        let gt_classes_i :=
          masked_fill (map (fun l => (l =? -1)%Z) anchor_labels) gt_classes_i (-1)%Z in
        Some (gt_classes_i, gt_anchors_reg_deltas_i)
    | _, _ => None
    end
  else
    let gt_classes_i := map (fun _ => (0 + K)%Z) gt_matched_idxs in
    let gt_anchors_reg_deltas_i := map (map (fun _ => 0)) anchors_per_image in
    Some (gt_classes_i, gt_anchors_reg_deltas_i).

(** [SSD.get_ground_truth]: the loop over the images and the two
    [torch.stack] calls. *)
Fixpoint get_ground_truth (anchors : list (list (list Q))) (targets : list instances)
    : option (list (list Z) * list (list (list Q))) :=
  match anchors, targets with
  | anchors_per_image :: anchors', targets_per_image :: targets' =>
      match get_ground_truth_image anchors_per_image targets_per_image,
            get_ground_truth anchors' targets' with
      | Some (c, d), Some (cs, ds) => Some (c :: cs, d :: ds)
      | _, _ => None
      end
  | _, _ => Some ([], [])
  end.

(** ** Inference on one image *)

Variable score_threshold : Q.
Variable topk_candidates : nat.
Variable nms_threshold : Q.
Variable max_detections_per_image : nat.

(** [F.softmax(x, dim=-1)] on one row, [Tensor.sort(descending=True)] (the
    indices it returns; the values are the entries at these indices),
    [Box2BoxTransform.apply_deltas] and [batched_nms]. *)
Variable softmax : list Q -> list Q.
Variable sort_descending : list Q -> list nat.
Variable apply_deltas : list (list Q) -> list (list Q) -> list (list Q).
Variable batched_nms : list (list Q) -> list Q -> list nat -> Q -> list nat.

(** The [Instances] returned for one image. *)
Record detections : Type :=
  { pred_boxes : list (list Q); scores : list Q; pred_classes : list nat }.

(** Softmax over the K+1 logits of every anchor, the last column dropped
    ([box_cls_i[:, :-1]]), flattened. *)
Definition level_scores (box_cls_i : list (list Q)) : list Q :=
  flatten (map (fun row => removelast (softmax row)) box_cls_i).

(** The sorted scores of a level: [box_cls_i.sort(descending=True)[0]]. *)
Definition sorted_scores (box_cls_i : list (list Q)) : list Q :=
  map (fun i => nth i (level_scores box_cls_i) 0) (sort_descending (level_scores box_cls_i)).

(** [num_topk = min(self.topk_candidates, box_reg_i.size(0))] *)
Definition num_topk (box_reg_i : list (list Q)) : nat :=
  Nat.min topk_candidates (length box_reg_i).

(** [predicted_prob[:num_topk]] and [topk_idxs[:num_topk]] of the sorted
    scores. *)
Definition level_topk (box_cls_i box_reg_i : list (list Q)) : list Q * list nat :=
  let flat := level_scores box_cls_i in
  let idxs := sort_descending flat in
  let predicted_prob := map (fun i => nth i flat 0) idxs in
  (firstn (num_topk box_reg_i) predicted_prob, firstn (num_topk box_reg_i) idxs).

(** [keep_idxs = predicted_prob > self.score_threshold] *)
Definition keep_idxs (predicted_prob : list Q) : list bool :=
  map (fun p => negb (Qle_bool p score_threshold)) predicted_prob.

(** One iteration of the loop over the feature levels:
    [(predicted_boxes, predicted_prob, classes_idxs)]. *)
Definition inference_level (box_cls_i box_reg_i anchors_i : list (list Q))
    : option (list (list Q) * list Q * list nat) :=
  let '(predicted_prob, topk_idxs) := level_topk box_cls_i box_reg_i in
  let keep := keep_idxs predicted_prob in
  let predicted_prob := masked_select keep predicted_prob in
  let topk_idxs := masked_select keep topk_idxs in
  let anchor_idxs := map (fun i => i / num_classes)%nat topk_idxs in
  let classes_idxs := map (fun i => i mod num_classes)%nat topk_idxs in
  match index_select box_reg_i anchor_idxs, index_select anchors_i anchor_idxs with
  | Some box_reg_i, Some anchors_i =>
      Some (apply_deltas box_reg_i anchors_i, predicted_prob, classes_idxs)
  | _, _ => None
  end.

(** The loop over the levels ([zip] stops at the shortest list) followed by
    the three [cat]. *)
Fixpoint inference_levels (box_cls box_delta anchors : list (list (list Q)))
    : option (list (list Q) * list Q * list nat) :=
  match box_cls, box_delta, anchors with
  | box_cls_i :: box_cls', box_reg_i :: box_delta', anchors_i :: anchors' =>
      match inference_level box_cls_i box_reg_i anchors_i,
            inference_levels box_cls' box_delta' anchors' with
      | Some (b, s, c), Some (bs, ss, cs) => Some (b ++ bs, s ++ ss, c ++ cs)
      | _, _ => None
      end
  | _, _, _ => Some ([], [], [])
  end.

(** [SSD.inference_single_image] *)
Definition inference_single_image (box_cls box_delta anchors : list (list (list Q)))
    : option detections :=
  match inference_levels box_cls box_delta anchors with
  | Some (boxes_all, scores_all, class_idxs_all) =>
      let keep := batched_nms boxes_all scores_all class_idxs_all nms_threshold in
      let keep := firstn max_detections_per_image keep in
      match index_select boxes_all keep, index_select scores_all keep,
            index_select class_idxs_all keep with
      | Some b, Some s, Some c =>
          Some {| pred_boxes := b; scores := s; pred_classes := c |}
      | _, _, _ => None
      end
  | None => None
  end.

(** The shapes [inference_single_image] expects on every feature level: K+1
    logits, one row of deltas and one anchor per location. *)
Fixpoint level_shapes (box_cls box_delta anchors : list (list (list Q))) : Prop :=
  match box_cls, box_delta, anchors with
  | box_cls_i :: box_cls', box_reg_i :: box_delta', anchors_i :: anchors' =>
      (Forall (fun row => length row = S num_classes) box_cls_i
       /\ length box_reg_i = length box_cls_i
       /\ length anchors_i = length box_cls_i)
      /\ level_shapes box_cls' box_delta' anchors'
  | _, _, _ => True
  end.

(** A score and a class that belong together: the score is the softmax
    probability of the class at an anchor of the level, above the
    threshold. *)
Definition class_score (box_cls_i : list (list Q)) (score : Q) (class : nat) : Prop :=
  exists a, (a < length box_cls_i)%nat /\ (class < num_classes)%nat
            /\ score = nth class (softmax (nth a box_cls_i [])) 0
            /\ score_threshold < score.

(** ** The layout of the head outputs *)

(** A tensor of shape (N, C, H, W) with its shape, which an empty tensor
    still has. *)
Record tensor4 : Type :=
  { dim_N : nat; dim_C : nat; dim_H : nat; dim_W : nat;
    entries : list (list (list (list Q))) }.

(** The nested lists of a tensor have the lengths its shape says. *)
Definition tensor4_shape (t : tensor4) : Prop :=
  length (entries t) = dim_N t
  /\ Forall (fun image =>
               length image = dim_C t
               /\ Forall (fun plane =>
                            length plane = dim_H t
                            /\ Forall (fun row => length row = dim_W t) plane) image)
            (entries t).

(** [t.permute(2, 3, 0, 1)] of one image, viewed as (A, K, H, W): the entry
    (h, w, a, k) of the result is the entry (a, k, h, w) of [t]. *)
Definition permute_HWAK (H W : nat) (t : list (list (list (list Q))))
    : list (list (list (list Q))) :=
  map (fun h =>
         map (fun w => map (map (fun plane => nth w (nth h plane []) 0)) t) (seq 0 W))
      (seq 0 H).

(** [permute_to_N_HWA_K]: [view(N, -1, K, H, W)] splits the channels of
    every image into groups of [K], [permute(0, 3, 4, 1, 2)] moves the two
    spatial dimensions before them and [reshape(N, -1, K)] flattens all but
    the last dimension. *)
Definition permute_to_N_HWA_K (tensor : tensor4) (K : nat) : list (list (list Q)) :=
  map (fun image =>
         let viewed := rows_of (dim_C tensor / K) K image in
         flatten (flatten (permute_HWAK (dim_H tensor) (dim_W tensor) viewed)))
      (entries tensor).

(** The number of anchors of a level of shape (N, A x K, H, W). *)
Definition level_anchors (K : nat) (x : tensor4) : nat :=
  (dim_H x * dim_W x * (dim_C x / K))%nat.

(** [cat(tensors, dim=1)] of tensors of shape (N, Ri, K): image by image,
    the rows of all tensors, in their order. *)
Definition cat_dim1 (tensors : list (list (list (list Q)))) : list (list (list Q)) :=
  match tensors with
  | [] => []
  | first :: _ =>
      map (fun n => flatten (map (fun t => nth n t []) tensors)) (seq 0 (length first))
  end.

(** [permute_all_cls_and_box_to_N_HWA_K_and_concat]; [view(-1, K)] flattens
    the images. *)
Definition permute_all_cls_and_box_to_N_HWA_K_and_concat
    (box_cls box_delta : list tensor4) (classes : nat)
    : list (list Q) * list (list Q) :=
  let box_cls_flattened := map (fun x => permute_to_N_HWA_K x classes) box_cls in
  let box_delta_flattened := map (fun x => permute_to_N_HWA_K x 4) box_delta in
  (flatten (cat_dim1 box_cls_flattened), flatten (cat_dim1 box_delta_flattened)).

(** [[x[i] for x in xs]]: [None] where one of the lists is too short. *)
Fixpoint index_select_all {A} (xs : list (list A)) (i : nat) : option (list A) :=
  match xs with
  | [] => Some []
  | x :: xs' =>
      match nth_error x i, index_select_all xs' i with
      | Some a, Some r => Some (a :: r)
      | _, _ => None
      end
  end.

(** [SSD.inference]: the detections of every image; [None] where the
    assertion on the number of images fails or a level has no entry for an
    image. *)
Fixpoint inference_images (box_cls box_delta : list (list (list (list Q))))
    (anchors : list (list (list (list Q)))) (img_idx : nat) : option (list detections) :=
  match anchors with
  | [] => Some []
  | anchors_per_image :: anchors' =>
      match index_select_all box_cls img_idx, index_select_all box_delta img_idx with
      | Some box_cls_per_image, Some box_reg_per_image =>
          match inference_single_image box_cls_per_image box_reg_per_image
                                       anchors_per_image,
                inference_images box_cls box_delta anchors' (S img_idx) with
          | Some results_per_image, Some results => Some (results_per_image :: results)
          | _, _ => None
          end
      | _, _ => None
      end
  end.

Definition inference (box_cls box_delta : list tensor4)
    (anchors : list (list (list (list Q)))) (images : nat) : option (list detections) :=
  if (length anchors =? images)%nat then
    let box_cls := map (fun x => permute_to_N_HWA_K x (num_classes + 1)) box_cls in
    let box_delta := map (fun x => permute_to_N_HWA_K x 4) box_delta in
    inference_images box_cls box_delta anchors 0
  else None.

(** ** Facts about the tensor primitives *)

Lemma map2_length A B C (f : A -> B -> C) x y :
  length x = length y -> length (map2 f x y) = length x.
Proof.
  revert y; induction x as [|a x IH]; intros [|b y] H; simpl in *; try discriminate; auto.
Qed.

Lemma masked_fill_length A (mask : list bool) (x : list A) c :
  length (masked_fill mask x c) = length x.
Proof.
  revert x; induction mask as [|b m IH]; intros [|a x]; simpl; auto.
Qed.

Lemma masked_assign_select A (d : A) (mask : list bool) (x : list A) :
  length mask = length x ->
  masked_assign mask (map (fun _ => d) x) (masked_select mask x)
  = map2 (fun (b : bool) a => if b then a else d) mask x.
Proof.
  revert x; induction mask as [|b m IH]; intros [|a x] H; simpl in *;
    try discriminate; auto.
  injection H as H. destruct b; simpl; rewrite IH; auto.
Qed.

Lemma masked_assign_map2 A B C (f : A -> B -> C) (d : C) (p : B -> bool) x y :
  length x = length y ->
  masked_assign (map p y) (map (fun _ => d) x)
                (map2 f (masked_select (map p y) x) (masked_select (map p y) y))
  = map2 (fun a b => if p b then f a b else d) x y.
Proof.
  revert y; induction x as [|a x IH]; intros [|b y] H; simpl in *;
    try discriminate; auto.
  injection H as H. destruct (p b); simpl; rewrite IH; auto.
Qed.

Lemma masked_fill_negb A (keep : list bool) (x : list A) c :
  length keep = length x ->
  masked_fill (map negb keep) x c = map2 (fun (k : bool) a => if k then a else c) keep x.
Proof.
  revert x; induction keep as [|k m IH]; intros [|a x] H; simpl in *;
    try discriminate; auto.
  injection H as H. rewrite IH by auto. destruct k; reflexivity.
Qed.

Lemma map2_map_r A B C D (f : A -> C -> D) (g : B -> C) x y :
  map2 f x (map g y) = map2 (fun a b => f a (g b)) x y.
Proof.
  revert y; induction x as [|a x IH]; intros [|b y]; simpl; auto.
  now rewrite IH.
Qed.

Lemma map2_map_l A B C D (f : C -> B -> D) (g : A -> C) x y :
  map2 f (map g x) y = map2 (fun a b => f (g a) b) x y.
Proof.
  revert y; induction x as [|a x IH]; intros [|b y]; simpl; auto.
  now rewrite IH.
Qed.

Lemma map2_ext_in A B C (f g : A -> B -> C) x y :
  (forall a b, In (a, b) (combine x y) -> f a b = g a b) ->
  map2 f x y = map2 g x y.
Proof.
  revert y; induction x as [|a x IH]; intros [|b y] H; simpl in *; auto.
  f_equal; auto.
Qed.

Lemma nth_map2 A B C (f : A -> B -> C) x y i da db dc :
  length x = length y -> (i < length x)%nat ->
  nth i (map2 f x y) dc = f (nth i x da) (nth i y db).
Proof.
  revert y i; induction x as [|a x IH]; intros [|b y] [|i] H Hi; simpl in *;
    try discriminate; try lia; auto.
  apply IH; lia.
Qed.

Lemma Qsum_app x y : Qsum (x ++ y) == Qsum x + Qsum y.
Proof.
  induction x as [|a x IH]; simpl.
  - now rewrite Qplus_0_l.
  - rewrite IH. now rewrite Qplus_assoc.
Qed.

(** Summing a tensor whose unselected entries were zeroed is summing the
    selected entries. *)
Lemma Qsum_zeroed (sel : list bool) (x : list Q) :
  Qsum (map2 (fun (s : bool) a => if s then a else 0) sel x)
  == Qsum (masked_select sel x).
Proof.
  revert x; induction sel as [|s m IH]; intros [|a x]; simpl; try reflexivity.
  destruct s; simpl; rewrite IH; [reflexivity | apply Qplus_0_l].
Qed.

Lemma max1_pos n : 0 < max1 n.
Proof.
  unfold max1. change 0 with (inject_Z 0). rewrite <- Zlt_Qlt. lia.
Qed.

Lemma rows_of_flatten A (x : list (list A)) m :
  Forall (fun r => length r = m) x ->
  forall tl, rows_of (length x) m (flatten x ++ tl) = x.
Proof.
  induction 1 as [|r x Hr _ IH]; intros tl; simpl; auto.
  unfold flatten in *. rewrite <- app_assoc.
  rewrite firstn_app, skipn_app, Hr, Nat.sub_diag, firstn_all2, skipn_all2 by lia.
  simpl. rewrite app_nil_r. f_equal. apply IH.
Qed.

Lemma flatten_length A (x : list (list A)) m :
  Forall (fun r => length r = m) x -> length (flatten x) = (length x * m)%nat.
Proof.
  induction 1 as [|r x Hr _ IH]; simpl; auto.
  unfold flatten in *. rewrite length_app, IH, Hr. lia.
Qed.

(** [flatten] followed by [view(batch_size, -1)] gives the rows back. *)
Lemma view_rows_flatten A (x : list (list A)) m :
  Forall (fun r => length r = m) x -> view_rows (length x) (flatten x) = x.
Proof.
  intros H. unfold view_rows. rewrite (flatten_length H).
  destruct x as [|r x]; [reflexivity|].
  rewrite (Nat.mul_comm (length (r :: x)) m), Nat.div_mul by (simpl; lia).
  rewrite <- (app_nil_r (flatten (r :: x))). now apply rows_of_flatten.
Qed.

Lemma nth_map_lt A B (f : A -> B) l i d d' :
  (i < length l)%nat -> nth i (map f l) d' = f (nth i l d).
Proof.
  intros H. rewrite (nth_indep _ d' (f d)) by now rewrite length_map.
  apply map_nth.
Qed.

Lemma rows_of_shape A n m (x : list A) :
  length x = (n * m)%nat ->
  length (rows_of n m x) = n /\ Forall (fun r => length r = m) (rows_of n m x).
Proof.
  revert x; induction n as [|n IH]; intros x H; simpl; [auto|].
  destruct (IH (skipn m x)) as [H1 H2]; [rewrite length_skipn; lia|].
  split; [now rewrite H1|]. constructor; auto.
  rewrite length_firstn. simpl in H. lia.
Qed.

Lemma view_rows_shape A n m (x : list A) :
  length x = (n * m)%nat ->
  length (view_rows n x) = n /\ Forall (fun r => length r = m) (view_rows n x).
Proof.
  intros H. unfold view_rows. destruct n as [|n]; [simpl; auto|].
  rewrite H, (Nat.mul_comm (S n) m), Nat.div_mul by lia.
  now apply rows_of_shape.
Qed.

Lemma flatten_map2_length A B C (f : list A -> B -> list C) rows y m :
  (forall r b, length (f r b) = length r) ->
  Forall (fun r => length r = m) rows -> length rows = length y ->
  length (flatten (map2 f rows y)) = (length rows * m)%nat.
Proof.
  intros Hf H; revert y; induction H as [|r rows Hr _ IH]; intros [|b y] Hl;
    simpl in *; try discriminate; auto.
  unfold flatten in *. rewrite length_app, Hf, Hr, IH by lia. lia.
Qed.

(** ** The Multibox classification loss *)

Section Ranking.

(** [argsort] returns one index per entry. *)
Hypothesis argsort_float_length : forall l, length (argsort_float l) = length l.
Hypothesis argsort_long_length : forall l, length (argsort_long l) = length l.

Lemma rank_row_length row : length (rank_row row) = length row.
Proof.
  unfold rank_row.
  now rewrite argsort_long_length, argsort_float_length, length_map.
Qed.

Lemma loss_for_all_indices_eq pred gt :
  length pred = length gt ->
  loss_for_all_indices pred gt
  = map2 (fun row c => if (0 <=? c)%Z then cross_entropy row c else 0) pred gt.
Proof.
  intros H. unfold loss_for_all_indices, valid_idxs.
  now apply masked_assign_map2.
Qed.

Lemma loss_for_neg_indices_length pred gt :
  length pred = length gt -> length (loss_for_neg_indices pred gt) = length gt.
Proof.
  intros H. unfold loss_for_neg_indices, background_idxs.
  rewrite masked_assign_select;
    rewrite ?loss_for_all_indices_eq, ?length_map, ?map2_length by auto; auto.
  rewrite map2_length; rewrite ?length_map, ?map2_length; auto.
Qed.

Lemma hard_negative_length n m (gt : list (list Z)) pred :
  Forall (fun r => length r = m) gt -> length gt = n ->
  length pred = (n * m)%nat ->
  length (hard_negative n pred (flatten gt)) = length (flatten gt).
Proof.
  intros Hr Hn Hp. pose proof (flatten_length Hr) as Hg. rewrite Hn in Hg.
  unfold hard_negative.
  destruct (@view_rows_shape Q n m (loss_for_neg_indices pred (flatten gt))) as [N1 N2].
  { rewrite loss_for_neg_indices_length; lia. }
  destruct (@view_rows_shape bool n m (foreground_idxs (flatten gt))) as [F1 F2].
  { unfold foreground_idxs. rewrite length_map. lia. }
  rewrite map2_length; unfold background_idxs; rewrite ?length_map.
  - rewrite (@flatten_map2_length _ _ _ _ _ _ m).
    + rewrite length_map. lia.
    + intros r b. unfold hard_negative_row. now rewrite length_map.
    + clear - N2 argsort_float_length argsort_long_length.
      induction N2; simpl; constructor; auto. now rewrite rank_row_length.
    + rewrite !length_map. lia.
  - rewrite (@flatten_map2_length _ _ _ _ _ _ m).
    + rewrite length_map. lia.
    + intros r b. unfold hard_negative_row. now rewrite length_map.
    + clear - N2 argsort_float_length argsort_long_length.
      induction N2; simpl; constructor; auto. now rewrite rank_row_length.
    + rewrite !length_map. lia.
Qed.

Lemma hard_negative_nth_background n pred g i :
  nth i (hard_negative n pred g) false = true ->
  nth i (background_idxs g) false = true.
Proof.
  unfold hard_negative.
  generalize (flatten (map2 hard_negative_row
     (map rank_row (view_rows n (loss_for_neg_indices pred g)))
     (map count_true (view_rows n (foreground_idxs g))))).
  generalize (background_idxs g). intros bg hn. revert bg i.
  induction hn as [|h hn IH]; intros [|b bg] [|i]; simpl; try discriminate; auto.
  destruct h, b; simpl; auto.
Qed.

Lemma background_not_foreground g i :
  nth i (background_idxs g) false = true -> nth i (foreground_idxs g) false = false.
Proof.
  unfold background_idxs, foreground_idxs. revert i.
  induction g as [|c g IH]; intros [|i]; simpl; auto.
  intros ->. now rewrite andb_false_r.
Qed.

Lemma mined_loss_eq n m (gt : list (list Z)) pred :
  Forall (fun r => length r = m) gt -> length gt = n ->
  length pred = (n * m)%nat ->
  mined_loss n pred (flatten gt)
  = map2 (fun (s : bool) c => if s then c else 0)
         (selected n pred (flatten gt)) (per_anchor_ce pred (flatten gt)).
Proof.
  intros Hr Hn Hp. pose proof (flatten_length Hr) as Hg. rewrite Hn in Hg.
  pose proof (hard_negative_length pred Hr Hn Hp) as Hh.
  assert (Hs : length (selected n pred (flatten gt)) = length (flatten gt)).
  { unfold selected. rewrite map2_length; auto.
    unfold foreground_idxs. now rewrite length_map. }
  unfold mined_loss. fold (selected n pred (flatten gt)).
  rewrite masked_fill_negb, loss_for_all_indices_eq;
    rewrite ?loss_for_all_indices_eq, ?map2_length; try lia.
  apply nth_ext with (d := 0) (d' := 0).
  { rewrite !map2_length; unfold per_anchor_ce; rewrite ?map2_length; lia. }
  intros i Hi. rewrite map2_length in Hi by (rewrite map2_length; lia).
  rewrite (@nth_map2 _ _ _ _ _ _ i false 0 0); rewrite ?map2_length; try lia.
  rewrite (@nth_map2 _ _ _ _ _ _ i false 0 0);
    unfold per_anchor_ce; rewrite ?map2_length; try lia.
  destruct (nth i (selected n pred (flatten gt)) false) eqn:E; auto.
  rewrite !(@nth_map2 _ _ _ _ _ _ i [] 0%Z 0) by lia.
  unfold selected in E.
  rewrite (@nth_map2 _ _ _ _ _ _ i false false false) in E;
    unfold foreground_idxs in E |- *; rewrite ?length_map; try lia.
  apply orb_true_iff in E. destruct E as [E|E].
  - apply hard_negative_nth_background in E. unfold background_idxs in E.
    rewrite (@nth_map_lt _ _ _ _ i 0%Z) in E by lia.
    apply Z.eqb_eq in E. rewrite E. unfold K.
    now destruct (Z.leb_spec 0 (Z.of_nat num_classes)); [|lia].
  - rewrite (@nth_map_lt _ _ _ _ i 0%Z) in E by lia.
    apply andb_true_iff in E. destruct E as [E _]. now rewrite E.
Qed.

Lemma nth_map2_orb x y i :
  nth i (map2 orb x y) false = true ->
  nth i x false = true \/ nth i y false = true.
Proof.
  revert y i; induction x as [|a x IH]; intros [|b y] [|i]; simpl;
    try discriminate; auto.
  apply orb_true_iff.
Qed.

Lemma background_valid g i :
  nth i (background_idxs g) false = true -> nth i (valid_idxs g) false = true.
Proof.
  unfold background_idxs, valid_idxs. revert i.
  induction g as [|c g IH]; intros [|i]; simpl; auto.
  intros E. apply Z.eqb_eq in E. subst c. unfold K. apply Z.leb_le. lia.
Qed.

Lemma foreground_valid g i :
  nth i (foreground_idxs g) false = true -> nth i (valid_idxs g) false = true.
Proof.
  unfold foreground_idxs, valid_idxs. revert i.
  induction g as [|c g IH]; intros [|i]; simpl; auto.
  intros E. now apply andb_true_iff in E.
Qed.

Lemma selected_valid n pred g i :
  nth i (selected n pred g) false = true -> nth i (valid_idxs g) false = true.
Proof.
  intros E. apply nth_map2_orb in E. destruct E as [E|E].
  - now apply background_valid, hard_negative_nth_background with (n := n) (pred := pred).
  - now apply foreground_valid.
Qed.

Lemma Qsum_select_zeroed (valid sel : list bool) (x : list Q) :
  (forall i, nth i sel false = true -> nth i valid false = true) ->
  length valid = length sel ->
  Qsum (masked_select valid (map2 (fun (s : bool) a => if s then a else 0) sel x))
  == Qsum (masked_select sel x).
Proof.
  revert sel x; induction valid as [|v valid IH]; intros [|s sel] [|a x] H Hl;
    simpl in *; try discriminate; try reflexivity.
  injection Hl as Hl.
  assert (IH' := IH sel x (fun i => H (S i)) Hl).
  specialize (H O). simpl in H.
  destruct s; simpl.
  - rewrite H by reflexivity. simpl. now rewrite IH'.
  - destruct v; simpl; rewrite IH'; [apply Qplus_0_l | reflexivity].
Qed.

(** C1.  In the Multibox variant the classification loss is the sum of the
    per-anchor cross-entropy over the anchors that are FOREGROUND or
    selected hard negatives, divided by [max(1, num_foreground)] of the whole
    batch; a selected hard negative is a BACKGROUND anchor; an anchor outside
    this union (an unselected BACKGROUND anchor, an IGNORE anchor) has the
    entry 0 in the summed tensor, an anchor inside it its cross-entropy. *)
Theorem C1_multibox_loss_cls (n m : nat) (gt_classes : list (list Z))
    (gt_anchors_deltas : list (list (list Q)))
    (pred_class_logits pred_anchor_deltas : list (list Q)) :
  loss_name = Multibox ->
  Forall (fun r => length r = m) gt_classes -> length gt_classes = n ->
  length pred_class_logits = (n * m)%nat ->
  let g := flatten gt_classes in
  let ce := per_anchor_ce pred_class_logits g in
  let sel := selected n pred_class_logits g in
  loss_cls (losses n gt_classes gt_anchors_deltas pred_class_logits pred_anchor_deltas)
  == Qsum (masked_select sel ce) / max1 (count_true (foreground_idxs g))
  /\ (forall i, nth i (hard_negative n pred_class_logits g) false = true ->
                nth i (background_idxs g) false = true)
  /\ (forall i, nth i sel false = true <->
                nth i (foreground_idxs g) false = true \/
                nth i (hard_negative n pred_class_logits g) false = true)
  /\ (forall i, nth i sel false = false ->
                nth i (mined_loss n pred_class_logits g) 0 = 0)
  /\ (forall i, nth i sel false = true ->
                nth i (mined_loss n pred_class_logits g) 0 = nth i ce 0).
Proof using argsort_float_length argsort_long_length.
  intros Hl Hr Hn Hp g ce sel.
  pose proof (flatten_length Hr) as Hg. rewrite Hn in Hg. fold g in Hg.
  pose proof (hard_negative_length pred_class_logits Hr Hn Hp) as Hh. fold g in Hh.
  pose proof (mined_loss_eq pred_class_logits Hr Hn Hp) as Hm.
  fold g in Hm. fold ce in Hm. fold sel in Hm.
  assert (Hs : length sel = length g).
  { unfold sel, selected. rewrite map2_length; auto.
    unfold foreground_idxs. now rewrite length_map. }
  assert (Hc : length ce = length g).
  { unfold ce, per_anchor_ce. rewrite map2_length; lia. }
  assert (Hpt : forall i, nth i (mined_loss n pred_class_logits g) 0
                          = if nth i sel false then nth i ce 0 else 0).
  { intros i. rewrite Hm. destruct (Nat.lt_ge_cases i (length g)) as [Hi|Hi].
    - now rewrite (@nth_map2 _ _ _ _ _ _ i false 0 0) by lia.
    - rewrite !nth_overflow; rewrite ?map2_length; try lia.
      now destruct (nth i sel false). }
  split; [|split; [|split; [|split]]].
  - unfold losses. rewrite Hl. simpl. unfold multibox_loss_cls. fold g.
    rewrite Hm. rewrite Qsum_select_zeroed; [reflexivity | |].
    + intros i. apply selected_valid.
    + unfold valid_idxs. rewrite length_map. lia.
  - intros i. apply hard_negative_nth_background.
  - intros i. unfold sel, selected. split.
    + intros E. apply nth_map2_orb in E. destruct E; [right | left]; assumption.
    + intros E. destruct (Nat.lt_ge_cases i (length g)) as [Hi|Hi].
      * rewrite (@nth_map2 _ _ _ _ _ _ i false false false);
          unfold foreground_idxs in E |- *; rewrite ?length_map; try lia.
        apply orb_true_iff. destruct E; [right | left]; assumption.
      * destruct E as [E|E]; rewrite nth_overflow in E; try discriminate;
          unfold foreground_idxs; rewrite ?length_map; lia.
  - intros i E. now rewrite Hpt, E.
  - intros i E. now rewrite Hpt, E.
Qed.

End Ranking.

(** ** Counting with [argsort] *)

Lemma count_true_app x y : count_true (x ++ y) = (count_true x + count_true y)%nat.
Proof.
  unfold count_true. now rewrite filter_app, length_app.
Qed.

Lemma count_true_map_filter A (f : A -> bool) l :
  count_true (map f l) = length (filter f l).
Proof.
  unfold count_true. induction l as [|a l IH]; simpl; auto.
  destruct (f a); simpl; auto.
Qed.

Lemma map_nth_seq_id A (l : list A) d :
  map (fun i => nth i l d) (seq 0 (length l)) = l.
Proof.
  apply nth_ext with (d := d) (d' := d).
  - now rewrite length_map, length_seq.
  - intros i Hi. rewrite length_map, length_seq in Hi.
    rewrite (@nth_map_lt _ _ _ _ i 0%nat) by now rewrite length_seq.
    now rewrite seq_nth.
Qed.

Lemma count_true_perm (x y : list bool) :
  Permutation x y -> count_true x = count_true y.
Proof.
  unfold count_true.
  induction 1 as [|b x y _ IH|a b x|x y z _ IH1 _ IH2]; simpl; auto.
  - destruct b; simpl; auto.
  - destruct a, b; reflexivity.
  - congruence.
Qed.

(** Counting the true entries of a mask along a permutation of its indices. *)
Lemma count_true_along (mask : list bool) (p : list nat) :
  Permutation p (seq 0 (length mask)) ->
  count_true mask = count_true (map (fun j => nth j mask false) p).
Proof.
  intros Hp. rewrite <- (map_nth_seq_id mask false) at 1.
  apply count_true_perm, Permutation_map. now symmetry.
Qed.

Lemma count_true_below c m :
  count_true (map (fun k => (k <? c)%nat) (seq 0 m)) = Nat.min c m.
Proof.
  revert c; induction m as [|m IH]; intros c; [now rewrite Nat.min_0_r|].
  rewrite seq_S, map_app, count_true_app, IH. simpl.
  unfold count_true. simpl. destruct (Nat.ltb_spec m c); simpl; lia.
Qed.

(** A sorted list of naturals is determined by its entries. *)
Lemma sorted_nat_unique (l l' : list nat) :
  StronglySorted le l -> StronglySorted le l' -> Permutation l l' -> l = l'.
Proof.
  intros H; revert l'; induction H as [|a l Hs IH Ha]; intros l' H' Hp.
  - now apply Permutation_nil in Hp.
  - destruct H' as [|b l' Hs' Hb].
    + symmetry in Hp. now apply Permutation_nil in Hp.
    + assert (a = b).
      { assert (In a (b :: l')) as [E|E]
          by (eapply Permutation_in; [exact Hp | now left]); [auto|].
        assert (In b (a :: l)) as [E'|E']
          by (eapply Permutation_in; [symmetry; exact Hp | now left]); [auto|].
        rewrite Forall_forall in Ha, Hb. specialize (Ha _ E'). specialize (Hb _ E). lia. }
      subst b. f_equal. apply IH; auto. now apply Permutation_cons_inv in Hp.
Qed.

Lemma seq_sorted s m : StronglySorted le (seq s m).
Proof.
  revert s; induction m as [|m IH]; intros s; simpl; constructor; auto.
  apply Forall_forall. intros x Hx. apply in_seq in Hx. lia.
Qed.

Lemma map_const_seq A B (w : list A) (b : B) s :
  map (fun _ => b) w = map (fun _ => b) (seq s (length w)).
Proof.
  revert s; induction w as [|a w IH]; intros s; simpl; auto. f_equal. apply IH.
Qed.

Lemma count_true_false A (w : list A) : count_true (map (fun _ => false) w) = 0%nat.
Proof.
  unfold count_true. induction w; simpl; auto.
Qed.

Lemma count_true_cons b l :
  count_true (b :: l) = ((if b then 1 else 0) + count_true l)%nat.
Proof.
  unfold count_true. destruct b; reflexivity.
Qed.

(** In a row sorted in ascending order the negative entries come first. *)
Lemma sorted_negative_prefix (w : list Q) :
  StronglySorted Qle w ->
  map is_negative w
  = map (fun k => (k <? count_true (map is_negative w))%nat) (seq 0 (length w)).
Proof.
  induction 1 as [|a w Hs IH Ha]; [reflexivity|].
  simpl. rewrite <- seq_shift, map_map.
  destruct (is_negative a) eqn:E.
  - rewrite count_true_cons. simpl. f_equal. exact IH.
  - assert (Hz : map is_negative w = map (fun _ => false) w).
    { apply map_ext_in. intros x Hx. rewrite Forall_forall in Ha.
      specialize (Ha _ Hx). unfold is_negative in *.
      apply negb_false_iff in E. apply Qle_bool_iff in E.
      apply negb_false_iff, Qle_bool_iff. now apply Qle_trans with a. }
    rewrite count_true_cons, Hz, count_true_false. simpl. f_equal.
    apply map_const_seq.
Qed.

Lemma permutation_seq_nth (p : list nat) m k :
  Permutation p (seq 0 m) -> (k < m)%nat -> (nth k p 0 < m)%nat.
Proof.
  intros Hp Hk. assert (Hl : length p = m).
  { apply Permutation_length in Hp. now rewrite length_seq in Hp. }
  assert (In (nth k p 0%nat) (seq 0 m)) as Hin
    by (eapply Permutation_in; [exact Hp | apply nth_In; lia]).
  apply in_seq in Hin. lia.
Qed.

Section ArgsortSpec.

Hypothesis argsort_float_spec : forall l, argsort_of Qle 0 l (argsort_float l).
Hypothesis argsort_long_spec : forall l, argsort_of le 0%nat l (argsort_long l).

Lemma argsort_float_length' l : length (argsort_float l) = length l.
Proof.
  destruct (argsort_float_spec l) as [Hp _].
  apply Permutation_length in Hp. now rewrite length_seq in Hp.
Qed.

Lemma argsort_long_length' l : length (argsort_long l) = length l.
Proof.
  destruct (argsort_long_spec l) as [Hp _].
  apply Permutation_length in Hp. now rewrite length_seq in Hp.
Qed.

(** The second [argsort] inverts the first: the entry that the first puts at
    position [k] gets rank [k]. *)
Lemma argsort_long_inverse (p : list nat) m k :
  Permutation p (seq 0 m) -> (k < m)%nat ->
  nth (nth k p 0%nat) (argsort_long p) 0%nat = k.
Proof.
  intros Hp Hk. assert (Hl : length p = m).
  { apply Permutation_length in Hp. now rewrite length_seq in Hp. }
  destruct (argsort_long_spec p) as [Hq Hs]. rewrite Hl in Hq.
  set (q := argsort_long p) in *.
  assert (Hid : map (fun i => nth i p 0%nat) q = seq 0 m).
  { apply sorted_nat_unique.
    - apply Sorted_StronglySorted; [intros x y z; apply Nat.le_trans | exact Hs].
    - apply seq_sorted.
    - transitivity (map (fun i => nth i p 0%nat) (seq 0 m)).
      + now apply Permutation_map.
      + rewrite <- Hl at 1. now rewrite map_nth_seq_id. }
  assert (Hlq : length q = m).
  { apply Permutation_length in Hq. now rewrite length_seq in Hq. }
  pose proof (permutation_seq_nth Hp Hk) as Hj.
  set (j := nth k p 0%nat) in *.
  pose proof (permutation_seq_nth Hq Hj) as Hr.
  assert (Hpj : nth (nth j q 0%nat) p 0%nat = j).
  { assert (E : nth j (map (fun i => nth i p 0%nat) q) 0%nat = nth j (seq 0 m) 0%nat)
      by now rewrite Hid.
    rewrite (@nth_map_lt _ _ _ _ j 0%nat) in E by lia.
    now rewrite seq_nth in E by lia. }
  assert (Hnd : NoDup p).
  { eapply Permutation_NoDup; [symmetry; exact Hp | apply seq_NoDup]. }
  rewrite NoDup_nth in Hnd. apply Hnd; try lia. exact Hpj.
Qed.

(** On one image: when the negative loss is positive exactly on the
    background anchors, the anchors of rank below [T] that are background
    are [min T (number of background anchors)] many. *)
Lemma rank_count (neg : list Q) (bg : list bool) (T : nat) :
  length bg = length neg ->
  (forall j, (j < length neg)%nat -> nth j bg false = is_negative (- nth j neg 0)) ->
  count_true (map2 andb (map (fun r => (r <? T)%nat) (rank_row neg)) bg)
  = Nat.min T (count_true bg).
Proof.
  intros Hl Hbg. set (m := length neg) in *.
  set (v := map Qopp neg).
  assert (Hv : length v = m) by (unfold v; now rewrite length_map).
  destruct (argsort_float_spec v) as [Hp Hs]. rewrite Hv in Hp.
  set (p := argsort_float v) in *.
  assert (Hlp : length p = m).
  { apply Permutation_length in Hp. now rewrite length_seq in Hp. }
  unfold rank_row. fold v. fold p. set (q := argsort_long p).
  assert (Hlq : length q = m) by (unfold q; now rewrite argsort_long_length').
  set (M := map2 andb (map (fun r => (r <? T)%nat) q) bg).
  assert (HlM : length M = m).
  { unfold M. rewrite map2_length; rewrite length_map; lia. }
  assert (Hneg : map is_negative v = bg).
  { apply nth_ext with (d := false) (d' := false).
    - rewrite length_map. lia.
    - intros j Hj. rewrite length_map, Hv in Hj.
      rewrite (@nth_map_lt _ _ _ _ j 0) by lia. unfold v.
      rewrite (@nth_map_lt _ _ _ _ j 0) by (fold m; lia).
      symmetry. now apply Hbg. }
  set (w := map (fun i => nth i v 0) p) in *.
  assert (Hw : count_true (map is_negative w) = count_true bg).
  { rewrite <- Hneg. unfold w. rewrite map_map. symmetry.
    rewrite (@count_true_along (map is_negative v) p)
      by (now rewrite length_map, Hv).
    f_equal. apply map_ext_in. intros j Hj.
    assert (Hjm : (j < m)%nat).
    { assert (In j (seq 0 m)) as Hin by (eapply Permutation_in; eauto).
      apply in_seq in Hin. lia. }
    now rewrite (@nth_map_lt _ _ _ _ j 0) by lia. }
  assert (Hpre := @sorted_negative_prefix w).
  rewrite Hw in Hpre.
  assert (Hlw : length w = m) by (unfold w; now rewrite length_map).
  rewrite Hlw in Hpre.
  specialize (Hpre (Sorted_StronglySorted Qle_trans Hs)).
  rewrite (@count_true_along M p) by now rewrite HlM.
  assert (Hmap : map (fun j => nth j M false) p
                 = map (fun k => (k <? Nat.min T (count_true bg))%nat) (seq 0 m)).
  { apply nth_ext with (d := false) (d' := false).
    - now rewrite !length_map, length_seq.
    - intros k Hk. rewrite length_map, Hlp in Hk.
      rewrite (@nth_map_lt _ _ _ _ k 0%nat) by lia.
      rewrite (@nth_map_lt _ _ _ _ k 0%nat) by (rewrite length_seq; lia).
      rewrite seq_nth by lia. simpl.
      pose proof (permutation_seq_nth Hp Hk) as Hj. fold p in Hj.
      unfold M. rewrite (@nth_map2 _ _ _ _ _ _ _ false false false);
        rewrite ?length_map; try lia.
      rewrite (@nth_map_lt _ _ _ _ _ 0%nat) by lia.
      unfold q. rewrite (argsort_long_inverse Hp Hk).
      assert (E : nth k (map is_negative w) false
                  = nth k (map (fun k => (k <? count_true bg)%nat) (seq 0 m)) false)
        by now rewrite Hpre.
      rewrite (@nth_map_lt _ _ _ _ k 0) in E by lia.
      rewrite (@nth_map_lt _ _ _ _ k 0%nat) in E by (rewrite length_seq; lia).
      rewrite seq_nth in E by lia. simpl in E.
      unfold w in E. rewrite (@nth_map_lt _ _ _ _ k 0%nat) in E by lia.
      rewrite <- Hneg at 1.
      rewrite (@nth_map_lt _ _ _ _ _ 0) by lia.
      rewrite E.
      destruct (Nat.ltb_spec k T), (Nat.ltb_spec k (count_true bg)),
        (Nat.ltb_spec k (Nat.min T (count_true bg))); simpl; auto; lia. }
  rewrite Hmap, count_true_below.
  assert (count_true bg <= m)%nat.
  { unfold count_true. rewrite <- Hl. apply filter_length_le. }
  lia.
Qed.

End ArgsortSpec.

(** ** The selection on one image *)

Lemma flatten_rows_of A n m (x : list A) :
  length x = (n * m)%nat -> flatten (rows_of n m x) = x.
Proof.
  revert x; induction n as [|n IH]; intros x H; simpl in H |- *.
  - destruct x; [reflexivity | discriminate].
  - unfold flatten in IH |- *. simpl. rewrite IH by (rewrite length_skipn; lia).
    apply firstn_skipn.
Qed.

Lemma flatten_view_rows A n m (x : list A) :
  length x = (n * m)%nat -> flatten (view_rows n x) = x.
Proof.
  intros H. unfold view_rows. destruct n as [|n].
  - destruct x; [reflexivity | discriminate].
  - rewrite H, (Nat.mul_comm (S n) m), Nat.div_mul by lia.
    now apply flatten_rows_of.
Qed.

Lemma map2_app A B C (f : A -> B -> C) x x' y y' :
  length x = length y ->
  map2 f (x ++ x') (y ++ y') = map2 f x y ++ map2 f x' y'.
Proof.
  revert y; induction x as [|a x IH]; intros [|b y] H; simpl in H |- *;
    try discriminate; auto.
  rewrite IH by lia. reflexivity.
Qed.

Lemma map2_flatten A B C (f : A -> B -> C) m xs ys :
  Forall (fun r => length r = m) xs -> Forall (fun r => length r = m) ys ->
  length xs = length ys ->
  map2 f (flatten xs) (flatten ys) = flatten (map2 (map2 f) xs ys).
Proof.
  intros Hx; revert ys; induction Hx as [|x xs Hx _ IH]; intros ys Hy Hl;
    destruct Hy as [|y ys Hy Hys]; simpl in Hl |- *; try discriminate; auto.
  unfold flatten in IH |- *. simpl. rewrite map2_app by lia.
  rewrite IH by (auto; lia). reflexivity.
Qed.

Lemma map2_rows_shape A B C (f : list A -> list B -> list C) m xs ys :
  (forall x y, length x = m -> length y = m -> length (f x y) = m) ->
  Forall (fun r => length r = m) xs -> Forall (fun r => length r = m) ys ->
  length xs = length ys ->
  Forall (fun r => length r = m) (map2 f xs ys).
Proof.
  intros Hf Hx; revert ys; induction Hx as [|x xs Hx _ IH]; intros ys Hy Hl;
    destruct Hy as [|y ys Hy Hys]; simpl in Hl |- *; try discriminate; auto.
Qed.

Lemma map2_rows_ext A B C (f g : list A -> list B -> list C) m xs ys :
  (forall x y, length x = m -> length y = m -> f x y = g x y) ->
  Forall (fun r => length r = m) xs -> Forall (fun r => length r = m) ys ->
  map2 f xs ys = map2 g xs ys.
Proof.
  intros Hf Hx; revert ys; induction Hx as [|x xs Hx _ IH]; intros ys Hy;
    destruct Hy as [|y ys Hy Hys]; simpl; auto.
  rewrite Hf, IH by auto. reflexivity.
Qed.

Lemma loss_for_neg_indices_eq pred gt :
  length pred = length gt ->
  loss_for_neg_indices pred gt
  = map2 (fun row c => if (c =? K)%Z then cross_entropy row c else 0) pred gt.
Proof.
  intros H. unfold loss_for_neg_indices, background_idxs.
  rewrite masked_assign_select
    by (rewrite length_map, loss_for_all_indices_eq, map2_length; auto).
  rewrite loss_for_all_indices_eq by auto.
  revert gt H; induction pred as [|a x IH]; intros [|c y] H; simpl in H |- *;
    try discriminate; auto.
  rewrite IH by lia. f_equal.
  destruct (Z.eqb_spec c K) as [->|]; auto.
  unfold K. now destruct (Z.leb_spec 0 (Z.of_nat num_classes)); [|lia].
Qed.

Lemma hard_negative_rows (P : list (list (list Q))) (G : list (list Z)) :
  map2 (map2 andb)
       (map2 hard_negative_row (map rank_row (map2 loss_for_neg_indices P G))
             (map count_true (map foreground_idxs G)))
       (map background_idxs G)
  = map2 hard_negative_image P G.
Proof.
  revert G; induction P as [|p P IH]; intros [|g G]; simpl; auto.
  rewrite IH. reflexivity.
Qed.

Lemma view_rows_flatten_at A n m (x : list (list A)) :
  Forall (fun r => length r = m) x -> length x = n ->
  view_rows n (flatten x) = x.
Proof.
  intros H <-. now apply view_rows_flatten with (m := m).
Qed.

Section PerImage.

Hypothesis argsort_float_length : forall l, length (argsort_float l) = length l.
Hypothesis argsort_long_length : forall l, length (argsort_long l) = length l.

(** The mask [hard_negative] of a batch is, image by image, the mask
    [hard_negative_image]: the selection does not couple the images. *)
Lemma view_rows_hard_negative n m (gt : list (list Z)) pred :
  Forall (fun r => length r = m) gt -> length gt = n ->
  length pred = (n * m)%nat ->
  view_rows n (hard_negative n pred (flatten gt))
  = map2 hard_negative_image (view_rows n pred) gt.
Proof using argsort_float_length argsort_long_length.
  intros Hr Hn Hp. pose proof (flatten_length Hr) as Hg. rewrite Hn in Hg.
  destruct (@view_rows_shape _ n m pred Hp) as [P1 P2].
  pose proof (@flatten_view_rows _ n m pred Hp) as HP.
  set (P := view_rows n pred) in *.
  assert (Hneg : view_rows n (loss_for_neg_indices pred (flatten gt))
                 = map2 loss_for_neg_indices P gt).
  { rewrite loss_for_neg_indices_eq by lia. rewrite <- HP.
    rewrite (@map2_flatten _ _ _ _ m) by (auto; lia).
    rewrite (@map2_rows_ext _ _ _ _ loss_for_neg_indices m);
      [ | intros x y Hx Hy; rewrite loss_for_neg_indices_eq by lia; reflexivity
        | auto | auto ].
    apply view_rows_flatten_at with (m := m).
    - apply map2_rows_shape; auto; try lia.
      intros x y Hx Hy. rewrite loss_for_neg_indices_length; lia.
    - rewrite map2_length; lia. }
  assert (Hfg : view_rows n (foreground_idxs (flatten gt)) = map foreground_idxs gt).
  { unfold foreground_idxs at 1, flatten. rewrite concat_map.
    apply view_rows_flatten_at with (m := m).
    - clear - Hr. induction Hr; simpl; constructor; auto.
      unfold foreground_idxs. now rewrite length_map.
    - now rewrite length_map. }
  assert (Hbg : background_idxs (flatten gt) = flatten (map background_idxs gt)).
  { unfold background_idxs at 1, flatten. now rewrite concat_map. }
  assert (Hshape : Forall (fun r => length r = m)
            (map2 hard_negative_row (map rank_row (map2 loss_for_neg_indices P gt))
                  (map count_true (map foreground_idxs gt)))).
  { clear - P2 Hr P1 Hn argsort_float_length argsort_long_length.
    assert (Hl : length P = length gt) by lia. clear P1 Hn.
    revert gt Hr Hl. induction P2 as [|p P Hp _ IH]; intros gt Hr Hl;
      destruct Hr as [|g gt Hg Hgt]; simpl in Hl |- *; try discriminate; auto.
    constructor; [|apply IH; auto; lia].
    unfold hard_negative_row. rewrite length_map.
    rewrite (rank_row_length argsort_float_length argsort_long_length).
    rewrite loss_for_neg_indices_length; lia. }
  unfold hard_negative. rewrite Hneg, Hfg, Hbg.
  rewrite (@map2_flatten _ _ _ _ m); auto.
  - rewrite hard_negative_rows.
    apply view_rows_flatten_at with (m := m).
    + apply map2_rows_shape; auto; try lia.
      intros x y Hx Hy. unfold hard_negative_image.
      rewrite map2_length; unfold hard_negative_row, background_idxs;
        rewrite !length_map;
        rewrite (rank_row_length argsort_float_length argsort_long_length);
        rewrite loss_for_neg_indices_length; lia.
    + rewrite map2_length; lia.
  - clear - Hr. induction Hr; simpl; constructor; auto.
    unfold background_idxs. now rewrite length_map.
  - rewrite map2_length; rewrite !length_map; rewrite ?map2_length; lia.
Qed.

End PerImage.

Lemma is_negative_opp_pos x : 0 < x -> is_negative (- x) = true.
Proof.
  intros H. unfold is_negative. apply negb_true_iff.
  destruct (Qle_bool 0 (- x)) eqn:E; auto.
  apply Qle_bool_iff in E. exfalso.
  apply (Qlt_irrefl 0). apply Qlt_le_trans with x; auto.
  apply Qopp_le_compat in E. now rewrite Qopp_opp in E.
Qed.

Lemma is_negative_opp_zero : is_negative (- 0) = false.
Proof. reflexivity. Qed.

Lemma hard_negative_row_nat rank nfg :
  hard_negative_row rank nfg
  = map (fun r => (r <? Z.to_nat (multibox_loss_neg_pos_ratio * Z.of_nat nfg))%nat) rank.
Proof.
  unfold hard_negative_row. apply map_ext. intros r.
  destruct (Z.ltb_spec (Z.of_nat r) (multibox_loss_neg_pos_ratio * Z.of_nat nfg)),
    (Nat.ltb_spec r (Z.to_nat (multibox_loss_neg_pos_ratio * Z.of_nat nfg)));
    auto; lia.
Qed.

Section HardNegativeCount.

Hypothesis argsort_float_spec : forall l, argsort_of Qle 0 l (argsort_float l).
Hypothesis argsort_long_spec : forall l, argsort_of le 0%nat l (argsort_long l).

(** The count on one image whose background anchors all have a positive
    cross-entropy. *)
Lemma hard_negative_image_count (pred_img : list (list Q)) (gt_img : list Z) :
  length pred_img = length gt_img ->
  (forall j, nth j (background_idxs gt_img) false = true ->
             0 < nth j (per_anchor_ce pred_img gt_img) 0) ->
  count_true (hard_negative_image pred_img gt_img)
  = Nat.min (Z.to_nat (multibox_loss_neg_pos_ratio
                       * Z.of_nat (count_true (foreground_idxs gt_img))))
            (count_true (background_idxs gt_img)).
Proof using argsort_float_spec argsort_long_spec.
  intros Hl Hpos. unfold hard_negative_image. rewrite hard_negative_row_nat.
  apply (rank_count argsort_float_spec argsort_long_spec).
  - unfold background_idxs. rewrite length_map, loss_for_neg_indices_length; auto.
  - intros j Hj. rewrite loss_for_neg_indices_length in Hj by auto.
    specialize (Hpos j). rewrite loss_for_neg_indices_eq by auto.
    unfold per_anchor_ce in Hpos.
    rewrite (@nth_map2 _ _ _ _ _ _ j [] 0%Z 0) in Hpos by lia.
    rewrite (@nth_map2 _ _ _ _ _ _ j [] 0%Z 0) by lia.
    unfold background_idxs in Hpos |- *.
    rewrite (@nth_map_lt _ _ _ _ j 0%Z) in Hpos |- * by lia.
    destruct (nth j gt_img 0 =? K)%Z.
    + symmetry. apply is_negative_opp_pos. now apply Hpos.
    + reflexivity.
Qed.

Lemma view_rows_per_anchor_ce n m (gt : list (list Z)) pred :
  Forall (fun r => length r = m) gt -> length gt = n ->
  length pred = (n * m)%nat ->
  view_rows n (per_anchor_ce pred (flatten gt))
  = map2 per_anchor_ce (view_rows n pred) gt.
Proof.
  intros Hr Hn Hp.
  destruct (@view_rows_shape _ n m pred Hp) as [P1 P2].
  pose proof (@flatten_view_rows _ n m pred Hp) as HP.
  unfold per_anchor_ce at 1. rewrite <- HP at 1.
  rewrite (@map2_flatten _ _ _ _ m) by (auto; lia).
  change (map2 (map2 cross_entropy)) with (map2 per_anchor_ce).
  apply view_rows_flatten_at with (m := m).
  - apply map2_rows_shape; auto; try lia.
    intros x y Hx Hy. unfold per_anchor_ce. rewrite map2_length; lia.
  - rewrite map2_length; lia.
Qed.

(** C2.  In the Multibox variant, on an image whose BACKGROUND anchors all
    have a strictly positive cross-entropy, the number of BACKGROUND anchors
    selected as hard negatives is
    [min(neg_pos_ratio * numForegroundInThisImage, numBackgroundInThisImage)];
    with no foreground anchor in the image it is 0. *)
Theorem C2_hard_negative_count (n m b : nat) (gt_classes : list (list Z))
    (pred_class_logits : list (list Q)) :
  (0 <= multibox_loss_neg_pos_ratio)%Z ->
  Forall (fun r => length r = m) gt_classes -> length gt_classes = n ->
  length pred_class_logits = (n * m)%nat -> (b < n)%nat ->
  let g := flatten gt_classes in
  let gt_b := nth b gt_classes [] in
  let ce_b := nth b (view_rows n (per_anchor_ce pred_class_logits g)) [] in
  let hard_negative_b := nth b (view_rows n (hard_negative n pred_class_logits g)) [] in
  (forall j, nth j (background_idxs gt_b) false = true -> 0 < nth j ce_b 0) ->
  Z.of_nat (count_true hard_negative_b)
  = Z.min (multibox_loss_neg_pos_ratio * Z.of_nat (count_true (foreground_idxs gt_b)))
          (Z.of_nat (count_true (background_idxs gt_b)))
  /\ (count_true (foreground_idxs gt_b) = 0%nat -> count_true hard_negative_b = 0%nat).
Proof using argsort_float_spec argsort_long_spec.
  intros Hratio Hr Hn Hp Hb g gt_b ce_b hn_b Hpos.
  destruct (@view_rows_shape _ n m pred_class_logits Hp) as [P1 P2].
  assert (Hrow : length (nth b (view_rows n pred_class_logits) []) = length gt_b).
  { rewrite Forall_forall in P2, Hr.
    rewrite (P2 (nth b (view_rows n pred_class_logits) [])) by (apply nth_In; lia).
    unfold gt_b. rewrite (Hr (nth b gt_classes [])) by (apply nth_In; lia).
    reflexivity. }
  assert (Hcount : count_true hn_b
     = Nat.min (Z.to_nat (multibox_loss_neg_pos_ratio
                          * Z.of_nat (count_true (foreground_idxs gt_b))))
               (count_true (background_idxs gt_b))).
  { unfold hn_b, g.
    rewrite (view_rows_hard_negative (argsort_float_length' argsort_float_spec)
               (argsort_long_length' argsort_long_spec) pred_class_logits Hr Hn Hp).
    rewrite (@nth_map2 _ _ _ _ _ _ b [] [] []) by lia.
    apply hard_negative_image_count; auto.
    unfold ce_b, g in Hpos.
    rewrite (view_rows_per_anchor_ce pred_class_logits Hr Hn Hp) in Hpos.
    rewrite (@nth_map2 _ _ _ _ _ _ b [] [] []) in Hpos by lia.
    exact Hpos. }
  split.
  - rewrite Hcount.
    assert (0 <= multibox_loss_neg_pos_ratio
                 * Z.of_nat (count_true (foreground_idxs gt_b)))%Z
      by (apply Z.mul_nonneg_nonneg; lia).
    lia.
  - intros H0. rewrite Hcount, H0. rewrite Z.mul_0_r. reflexivity.
Qed.

End HardNegativeCount.

(** ** The Focal target and the regression loss *)

Lemma set_nth_nth (c j : nat) (row : list Q) :
  (j < length row)%nat ->
  nth j (set_nth c 1 (map (fun _ => 0) row)) 0 = if (j =? c)%nat then 1 else 0.
Proof.
  revert c j; induction row as [|a row IH]; intros c j H; simpl in H; [lia|].
  destruct c as [|c], j as [|j]; simpl; auto.
  - rewrite (@nth_map_lt _ _ _ _ j 0) by lia. reflexivity.
  - apply IH. lia.
Qed.

(** C3 (amended).  In the Focal variant the target row of a valid anchor is
    one-hot over the K+1 columns of the logits, the 1 standing in the column
    of the class target: the column of its class for a FOREGROUND anchor and
    column K, the last one, for a BACKGROUND anchor, whose K object-class
    columns are 0. *)
Theorem C3_focal_target_one_hot (pred_class_logits : list (list Q))
    (gt_classes : list Z) (i : nat) :
  length pred_class_logits = length gt_classes ->
  (i < length gt_classes)%nat ->
  length (nth i pred_class_logits []) = S num_classes ->
  (0 <= nth i gt_classes 0 <= K)%Z ->
  let target := nth i (gt_classes_target pred_class_logits gt_classes) [] in
  length target = S num_classes
  /\ (forall j, (j < S num_classes)%nat ->
        nth j target 0 = if (Z.of_nat j =? nth i gt_classes 0)%Z then 1 else 0)
  /\ (nth i (background_idxs gt_classes) false = true ->
        nth num_classes target 0 = 1
        /\ forall j, (j < num_classes)%nat -> nth j target 0 = 0).
Proof.
  intros Hl Hi Hrow Hc target.
  assert (Ht : target = set_nth (Z.to_nat (nth i gt_classes 0%Z)) 1
                          (map (fun _ => 0) (nth i pred_class_logits []))).
  { unfold target, gt_classes_target.
    rewrite (@nth_map2 _ _ _ _ _ _ i [] 0%Z []) by lia.
    destruct (Z.leb_spec 0 (nth i gt_classes 0%Z)); [reflexivity | lia]. }
  assert (Hnth : forall j, (j < S num_classes)%nat ->
            nth j target 0 = if (Z.of_nat j =? nth i gt_classes 0)%Z then 1 else 0).
  { intros j Hj. rewrite Ht, set_nth_nth by lia.
    destruct (Nat.eqb_spec j (Z.to_nat (nth i gt_classes 0%Z))),
      (Z.eqb_spec (Z.of_nat j) (nth i gt_classes 0%Z)); auto; lia. }
  split; [|split].
  - rewrite Ht.
    assert (Hs : forall (c : nat) (x : list Q), length (set_nth c 1 x) = length x).
    { clear. intros c x; revert c; induction x as [|a x IH]; intros [|c]; simpl; auto. }
    now rewrite Hs, length_map.
  - exact Hnth.
  - intros Hbg. unfold background_idxs in Hbg.
    rewrite (@nth_map_lt _ _ _ _ i 0%Z) in Hbg by lia.
    apply Z.eqb_eq in Hbg. split.
    + rewrite Hnth by lia. rewrite Hbg. unfold K. now rewrite Z.eqb_refl.
    + intros j Hj. rewrite Hnth by lia. rewrite Hbg. unfold K.
      destruct (Z.eqb_spec (Z.of_nat j) (Z.of_nat num_classes)); [lia | reflexivity].
Qed.

Lemma masked_select_nil_r A (mask : list bool) : masked_select mask (@nil A) = [].
Proof. destruct mask as [|[|] mask]; reflexivity. Qed.

Lemma map2_nil_r A B C (f : A -> B -> C) x : map2 f x [] = [].
Proof. destruct x; reflexivity. Qed.

Lemma smooth_l1_loss_selected (fg : list bool) (x y : list (list Q)) :
  smooth_l1_loss (masked_select fg x) (masked_select fg y)
  == Qsum (masked_select fg (per_anchor_smooth_l1 x y)).
Proof.
  unfold smooth_l1_loss, per_anchor_smooth_l1.
  revert x y; induction fg as [|b fg IH]; intros [|p x] [|t y];
    try destruct b; simpl;
    rewrite ?masked_select_nil_r, ?map2_nil_r; try reflexivity; [|apply IH].
  unfold flatten in IH |- *. simpl. rewrite Qsum_app, IH. reflexivity.
Qed.

Lemma not_foreground g i :
  (nth i g 0 = K \/ nth i g 0 < 0)%Z -> nth i (foreground_idxs g) false = false.
Proof.
  unfold foreground_idxs. revert i; induction g as [|c g IH]; intros [|i] H;
    simpl in H |- *; auto.
  destruct H as [->|H].
  - rewrite Z.eqb_refl. apply andb_false_r.
  - destruct (Z.leb_spec 0 c); [lia | reflexivity].
Qed.

(** C4.  Under both loss variants the regression loss is the smooth-L1 loss
    between predicted deltas and regression targets summed over the
    FOREGROUND anchors, divided by [max(1, num_foreground)] of the batch; an
    anchor labelled BACKGROUND or IGNORE is not among them. *)
Theorem C4_regression_loss (n : nat) (gt_classes : list (list Z))
    (gt_anchors_deltas : list (list (list Q)))
    (pred_class_logits pred_anchor_deltas : list (list Q)) :
  let g := flatten gt_classes in
  let fg := foreground_idxs g in
  loss_box_reg (losses n gt_classes gt_anchors_deltas pred_class_logits pred_anchor_deltas)
  == Qsum (masked_select fg (per_anchor_smooth_l1 pred_anchor_deltas
                                                   (flatten gt_anchors_deltas)))
     / max1 (count_true fg)
  /\ (forall i, (nth i g 0 = K \/ nth i g 0 < 0)%Z -> nth i fg false = false).
Proof.
  intros g fg. split.
  - unfold losses. simpl. unfold box_reg_loss. fold g. fold fg.
    now rewrite smooth_l1_loss_selected.
  - intros i. apply not_foreground.
Qed.

(** ** A batch without foreground anchors *)

Lemma masked_select_count_zero A (mask : list bool) (x : list A) :
  count_true mask = 0%nat -> masked_select mask x = [].
Proof.
  revert x; induction mask as [|b mask IH]; intros [|a x] H; simpl; auto.
  rewrite count_true_cons in H. destruct b; simpl in H; [discriminate|].
  now apply IH.
Qed.






Section EmptyBatch.

Hypothesis argsort_float_length : forall l, length (argsort_float l) = length l.
Hypothesis argsort_long_length : forall l, length (argsort_long l) = length l.






End EmptyBatch.

(** ** An image without ground truth *)

Lemma masked_select_app A (mask mask' : list bool) (x x' : list A) :
  length mask = length x ->
  masked_select (mask ++ mask') (x ++ x') = masked_select mask x ++ masked_select mask' x'.
Proof.
  revert x; induction mask as [|b mask IH]; intros [|a x] H; simpl in H |- *;
    try discriminate; auto.
  rewrite IH by lia. destruct b; reflexivity.
Qed.

Lemma foreground_idxs_background (r : nat) :
  count_true (foreground_idxs (repeat K r)) = 0%nat.
Proof.
  induction r as [|r IH]; [reflexivity|].
  simpl. rewrite count_true_cons, IH, Z.eqb_refl, andb_false_r. reflexivity.
Qed.

Lemma map_const_repeat A B (c : B) (l : list A) :
  map (fun _ => c) l = repeat c (length l).
Proof.
  induction l as [|a l IH]; simpl; [reflexivity | now rewrite IH].
Qed.

Section NoGroundTruth.

(** The IoU matrix has one column per anchor and the matcher returns one
    match per column. *)
Hypothesis pairwise_iou_shape : forall boxes1 boxes2,
  ncols (pairwise_iou boxes1 boxes2) = length boxes2.
Hypothesis matcher_shape : forall mq, length (fst (matcher mq)) = ncols mq.

(** C6.  For an image without ground-truth instances every anchor gets the
    class target K (BACKGROUND) and zero regression deltas; the image has no
    FOREGROUND anchor, its anchors select nothing for the regression loss,
    and the regression loss of a batch is the one of the batch without it. *)
Theorem C6_no_ground_truth (anchors_per_image : list (list Q))
    (targets_per_image : instances) :
  gt_boxes targets_per_image = [] ->
  let gt_i := repeat K (length anchors_per_image) in
  let deltas_i := map (map (fun _ => 0)) anchors_per_image in
  get_ground_truth_image anchors_per_image targets_per_image = Some (gt_i, deltas_i)
  /\ count_true (foreground_idxs gt_i) = 0%nat
  /\ (forall pred_i, masked_select (foreground_idxs gt_i) pred_i = []
                     /\ box_reg_loss pred_i deltas_i gt_i == 0)
  /\ (forall n n' G1 G2 D1 D2 cls cls' p1 pred_i p2,
        length p1 = length (flatten G1) ->
        length (flatten D1) = length (flatten G1) ->
        length pred_i = length anchors_per_image ->
        loss_box_reg (losses n (G1 ++ gt_i :: G2) (D1 ++ deltas_i :: D2) cls
                             (p1 ++ pred_i ++ p2))
        = loss_box_reg (losses n' (G1 ++ G2) (D1 ++ D2) cls' (p1 ++ p2))).
Proof using pairwise_iou_shape matcher_shape.
  intros Hgt gt_i deltas_i.
  assert (H0 : count_true (foreground_idxs gt_i) = 0%nat)
    by apply foreground_idxs_background.
  split; [|split; [|split]].
  - unfold get_ground_truth_image. rewrite Hgt.
    pose proof (matcher_shape (pairwise_iou [] anchors_per_image)) as Hm.
    rewrite pairwise_iou_shape in Hm.
    destruct (matcher (pairwise_iou [] anchors_per_image)) as [idxs labels].
    simpl in Hm |- *. unfold gt_i. rewrite <- Hm.
    now rewrite (map_const_repeat K idxs).
  - exact H0.
  - intros pred_i. split; [now apply masked_select_count_zero|].
    unfold box_reg_loss. rewrite !masked_select_count_zero by exact H0. reflexivity.
  - intros n n' G1 G2 D1 D2 cls cls' p1 pred_i p2 H1 H2 H3.
    unfold losses. simpl. unfold box_reg_loss, flatten.
    rewrite !concat_app. simpl.
    assert (Hgi : length gt_i = length anchors_per_image)
      by (unfold gt_i; apply repeat_length).
    assert (Hdi : length deltas_i = length anchors_per_image)
      by (unfold deltas_i; apply length_map).
    unfold foreground_idxs. rewrite !map_app.
    fold (foreground_idxs (concat G1)). fold (foreground_idxs gt_i).
    fold (foreground_idxs (concat G2)).
    assert (L1 : length (foreground_idxs (concat G1)) = length p1)
      by (unfold foreground_idxs; rewrite length_map; symmetry; exact H1).
    assert (L2 : length (foreground_idxs (concat G1)) = length (concat D1))
      by (unfold foreground_idxs; rewrite length_map; symmetry; exact H2).
    assert (L3 : length (foreground_idxs gt_i) = length pred_i)
      by (unfold foreground_idxs; rewrite length_map; lia).
    assert (L4 : length (foreground_idxs gt_i) = length deltas_i)
      by (unfold foreground_idxs; rewrite length_map; lia).
    rewrite !masked_select_app by assumption.
    rewrite !count_true_app, H0.
    rewrite !(@masked_select_count_zero _ (foreground_idxs gt_i)) by exact H0.
    reflexivity.
Qed.

End NoGroundTruth.

(** ** Candidates of one feature level *)

Section TopK.

(** [Tensor.sort(descending=True)]: the indices are a permutation of the
    positions and list the entries in descending order. *)
Hypothesis sort_descending_spec : forall l, argsort_of descending 0 l (sort_descending l).



End TopK.

(** ** Scores and classes of the detections *)

Lemma index_select_length A (x : list A) idxs r :
  index_select x idxs = Some r -> length r = length idxs.
Proof.
  revert r; induction idxs as [|i idxs IH]; intros r H; simpl in H.
  - now inversion H.
  - destruct (nth_error x i) as [a|]; [|discriminate].
    destruct (index_select x idxs) as [r'|]; [|discriminate].
    inversion H. simpl. now rewrite (IH r' eq_refl).
Qed.

Lemma index_select_In A (x : list A) idxs r :
  index_select x idxs = Some r -> Forall (fun a => In a x) r.
Proof.
  revert r; induction idxs as [|i idxs IH]; intros r H; simpl in H.
  - inversion H. constructor.
  - destruct (nth_error x i) as [a|] eqn:E; [|discriminate].
    destruct (index_select x idxs) as [r'|]; [|discriminate].
    inversion H. constructor; [now apply nth_error_In with i | now apply IH].
Qed.

Lemma masked_select_In A (mask : list bool) (x : list A) a :
  In a (masked_select mask x) -> In a x.
Proof.
  revert x; induction mask as [|b mask IH]; intros [|c x] H; simpl in H; try easy.
  destruct b; [destruct H as [->|H]|]; simpl; auto.
Qed.

Lemma firstn_In A n (x : list A) a : In a (firstn n x) -> In a x.
Proof.
  revert x; induction n as [|n IH]; intros [|c x] H; simpl in H; try easy.
  destruct H as [->|H]; simpl; auto.
Qed.

Lemma keep_idxs_nth (predicted_prob : list Q) j :
  nth j (keep_idxs predicted_prob) false = true
  <-> (j < length predicted_prob)%nat /\ score_threshold < nth j predicted_prob 0.
Proof.
  unfold keep_idxs. split.
  - intros H. destruct (Nat.lt_ge_cases j (length predicted_prob)) as [Hj|Hj].
    + split; [exact Hj|]. rewrite (@nth_map_lt _ _ _ _ j 0) in H by exact Hj.
      apply negb_true_iff in H. apply Qnot_le_lt. intros Hle.
      apply Qle_bool_iff in Hle. congruence.
    + rewrite nth_overflow in H by (now rewrite length_map). discriminate.
  - intros [Hj Hlt]. rewrite (@nth_map_lt _ _ _ _ j 0) by exact Hj.
    apply negb_true_iff. destruct (Qle_bool (nth j predicted_prob 0) score_threshold) eqn:E; auto.
    apply Qle_bool_iff in E. exfalso. now apply (Qlt_not_le _ _ Hlt).
Qed.

Lemma masked_select_keep (predicted_prob : list Q) s :
  In s (masked_select (keep_idxs predicted_prob) predicted_prob) ->
  In s predicted_prob /\ score_threshold < s.
Proof.
  unfold keep_idxs. induction predicted_prob as [|p l IH]; simpl; [easy|].
  destruct (Qle_bool p score_threshold) eqn:E; simpl.
  - intros H. destruct (IH H). auto.
  - intros [<-|H].
    + split; auto. apply Qnot_le_lt. intros Hle. apply Qle_bool_iff in Hle. congruence.
    + destruct (IH H). auto.
Qed.

Section Scores.

(** [F.softmax] returns probabilities. *)
Hypothesis softmax_range : forall row x, In x (softmax row) -> 0 <= x <= 1.

Lemma level_scores_range box_cls_i x :
  In x (level_scores box_cls_i) -> 0 <= x <= 1.
Proof using softmax_range.
  unfold level_scores, flatten. intros H. apply in_concat in H.
  destruct H as [row [Hrow Hx]]. apply in_map_iff in Hrow.
  destruct Hrow as [logits [<- _]]. apply softmax_range with logits.
  clear - Hx. induction (softmax logits) as [|a l IH]; simpl in Hx; [easy|].
  destruct l; [easy|]. destruct Hx as [->|Hx]; [now left | right; now apply IH].
Qed.

Lemma level_topk_range box_cls_i box_reg_i p :
  In p (fst (level_topk box_cls_i box_reg_i)) -> 0 <= p <= 1.
Proof using softmax_range.
  unfold level_topk. simpl. intros H. apply firstn_In in H.
  apply in_map_iff in H. destruct H as [i [<- _]].
  destruct (nth_in_or_default i (level_scores box_cls_i) 0) as [Hin | ->].
  - now apply level_scores_range with box_cls_i.
  - split; [apply Qle_refl | discriminate].
Qed.

Lemma inference_level_scores box_cls_i box_reg_i anchors_i b s c :
  inference_level box_cls_i box_reg_i anchors_i = Some (b, s, c) ->
  Forall (fun x => (0 <= x <= 1) /\ score_threshold < x) s.
Proof using softmax_range.
  unfold inference_level. intros H.
  pose proof (@level_topk_range box_cls_i box_reg_i) as Hr.
  destruct (level_topk box_cls_i box_reg_i) as [prob idxs]. simpl in Hr.
  destruct (index_select box_reg_i _); [|discriminate].
  destruct (index_select anchors_i _); [|discriminate].
  inversion H. subst. apply Forall_forall. intros x Hx.
  apply masked_select_keep in Hx. destruct Hx as [Hin Hlt]. auto.
Qed.

Lemma inference_levels_scores box_cls box_delta anchors b s c :
  inference_levels box_cls box_delta anchors = Some (b, s, c) ->
  Forall (fun x => (0 <= x <= 1) /\ score_threshold < x) s.
Proof using softmax_range.
  revert box_delta anchors b s c.
  induction box_cls as [|box_cls_i box_cls IH]; intros [|box_reg_i box_delta]
    [|anchors_i anchors] b s c H; simpl in H; try (inversion H; constructor).
  destruct (inference_level box_cls_i box_reg_i anchors_i) as [[[b1 s1] c1]|] eqn:E1;
    [|discriminate].
  destruct (inference_levels box_cls box_delta anchors) as [[[b2 s2] c2]|] eqn:E2;
    [|discriminate].
  inversion H. subst. apply Forall_app. split.
  - now apply inference_level_scores with box_cls_i box_reg_i anchors_i b1 c1.
  - now apply IH with box_delta anchors b2 c2.
Qed.

Lemma keep_idxs_In (predicted_prob : list Q) s :
  In s predicted_prob -> score_threshold < s ->
  In s (masked_select (keep_idxs predicted_prob) predicted_prob).
Proof.
  unfold keep_idxs. induction predicted_prob as [|p l IH]; simpl; [easy|].
  intros [->|Hin] Hlt.
  - destruct (Qle_bool s score_threshold) eqn:E; simpl; [|now left].
    apply Qle_bool_iff in E. exfalso. now apply (Qlt_not_le _ _ Hlt).
  - destruct (Qle_bool p score_threshold); simpl; [|right]; now apply IH.
Qed.

(** What a level returns: the candidates and the indices of the candidates
    at which [keep_idxs] holds. *)
Lemma inference_level_filtered box_cls_i box_reg_i anchors_i b s c :
  inference_level box_cls_i box_reg_i anchors_i = Some (b, s, c) ->
  let predicted_prob := fst (level_topk box_cls_i box_reg_i) in
  let topk_idxs := snd (level_topk box_cls_i box_reg_i) in
  s = masked_select (keep_idxs predicted_prob) predicted_prob
  /\ c = map (fun i => i mod num_classes)%nat
             (masked_select (keep_idxs predicted_prob) topk_idxs).
Proof.
  unfold inference_level. intros H.
  destruct (level_topk box_cls_i box_reg_i) as [prob idxs]. cbn [fst snd].
  destruct (index_select box_reg_i _); [|discriminate].
  destruct (index_select anchors_i _); [|discriminate].
  inversion H. split; reflexivity.
Qed.

Lemma inference_levels_filtered box_cls box_delta anchors b s c :
  inference_levels box_cls box_delta anchors = Some (b, s, c) ->
  let levels := firstn (length anchors) (combine box_cls box_delta) in
  s = flatten
        (map (fun level =>
                let predicted_prob := fst (level_topk (fst level) (snd level)) in
                masked_select (keep_idxs predicted_prob) predicted_prob) levels)
  /\ c = flatten
           (map (fun level =>
                   let predicted_prob := fst (level_topk (fst level) (snd level)) in
                   let topk_idxs := snd (level_topk (fst level) (snd level)) in
                   map (fun i => i mod num_classes)%nat
                       (masked_select (keep_idxs predicted_prob) topk_idxs)) levels).
Proof.
  revert box_delta anchors b s c.
  induction box_cls as [|box_cls_i box_cls IH]; intros [|box_reg_i box_delta]
    [|anchors_i anchors] b s c H; simpl in H;
    try (inversion H; split; reflexivity).
  destruct (inference_level box_cls_i box_reg_i anchors_i) as [[[b1 s1] c1]|] eqn:E1;
    [|discriminate].
  destruct (inference_levels box_cls box_delta anchors) as [[[b2 s2] c2]|] eqn:E2;
    [|discriminate].
  inversion H. subst b s c. clear H.
  destruct (inference_level_filtered _ _ _ E1) as [Hs1 Hc1].
  destruct (IH _ _ _ _ _ E2) as [Hs2 Hc2].
  cbn [length combine firstn map flatten concat fst snd].
  unfold flatten in Hs2, Hc2.
  rewrite <- Hs1, <- Hc1, <- Hs2, <- Hc2. split; reflexivity.
Qed.

(** C8.  A candidate survives the score filter exactly when its score is
    strictly greater than [score_threshold]: the mask [keep_idxs] holds at
    these candidates only, the scores and classes that the levels hand to
    NMS are the candidates and the indices selected by this mask, level
    after level, so that a score is handed on exactly when it is the score
    of a candidate above the threshold; the detections are taken from them,
    and every score of a returned detection lies in [0, 1] (and above the
    threshold). *)
Theorem C8_score_filter (box_cls box_delta anchors : list (list (list Q)))
    (result : detections) :
  inference_single_image box_cls box_delta anchors = Some result ->
  let levels := firstn (length anchors) (combine box_cls box_delta) in
  (forall predicted_prob j,
      nth j (keep_idxs predicted_prob) false = true
      <-> (j < length predicted_prob)%nat /\ score_threshold < nth j predicted_prob 0)
  /\ (exists boxes_all scores_all class_idxs_all,
        inference_levels box_cls box_delta anchors
        = Some (boxes_all, scores_all, class_idxs_all)
        /\ scores_all
           = flatten
               (map (fun level =>
                       let predicted_prob := fst (level_topk (fst level) (snd level)) in
                       masked_select (keep_idxs predicted_prob) predicted_prob) levels)
        /\ class_idxs_all
           = flatten
               (map (fun level =>
                       let predicted_prob := fst (level_topk (fst level) (snd level)) in
                       let topk_idxs := snd (level_topk (fst level) (snd level)) in
                       map (fun i => i mod num_classes)%nat
                           (masked_select (keep_idxs predicted_prob) topk_idxs)) levels)
        /\ (forall s,
              In s scores_all
              <-> exists level,
                    In level levels
                    /\ In s (fst (level_topk (fst level) (snd level)))
                    /\ score_threshold < s)
        /\ (let keep :=
              firstn max_detections_per_image
                     (batched_nms boxes_all scores_all class_idxs_all nms_threshold) in
            index_select scores_all keep = Some (scores result)
            /\ index_select class_idxs_all keep = Some (pred_classes result)))
  /\ Forall (fun s => (0 <= s <= 1) /\ score_threshold < s) (scores result).
Proof using softmax_range.
  intros H levels. split; [apply keep_idxs_nth|].
  unfold inference_single_image in H.
  destruct (inference_levels box_cls box_delta anchors) as [[[b s] c]|] eqn:E;
    [|discriminate].
  destruct (inference_levels_filtered _ _ _ E) as [Hs Hc]. fold levels in Hs, Hc.
  apply inference_levels_scores in E.
  destruct (index_select b _); [|discriminate].
  destruct (index_select s _) as [s'|] eqn:Es; [|discriminate].
  destruct (index_select c _) as [c'|] eqn:Ec; [|discriminate].
  inversion H. subst result. cbn [scores pred_classes]. split.
  - exists b, s, c. split; [reflexivity|]. split; [exact Hs|]. split; [exact Hc|].
    split; [|split; [exact Es | exact Ec]].
    intros x. rewrite Hs at 1. unfold flatten. rewrite in_concat. split.
    + intros [row [Hrow Hx]]. apply in_map_iff in Hrow.
      destruct Hrow as [level [<- Hlevel]]. exists level. split; [exact Hlevel|].
      now apply masked_select_keep.
    + intros [level [Hlevel [Hx Hlt]]].
      exists (masked_select (keep_idxs (fst (level_topk (fst level) (snd level))))
                            (fst (level_topk (fst level) (snd level)))).
      split; [|now apply keep_idxs_In].
      apply in_map_iff. exists level. split; [reflexivity | exact Hlevel].
  - apply index_select_In in Es.
    rewrite Forall_forall in E, Es |- *. intros x Hx. apply E. now apply Es.
Qed.

End Scores.

(** ** The background index *)

Lemma masked_fill_nth A (mask : list bool) (x : list A) c d j :
  (j < length x)%nat ->
  nth j (masked_fill mask x c) d = if nth j mask false then c else nth j x d.
Proof.
  revert x j; induction mask as [|b mask IH]; intros [|a x] j H; simpl in H |- *;
    try lia.
  - now destruct j.
  - destruct j as [|j]; [reflexivity | apply IH; lia].
Qed.

Lemma nth_flatten A (rows : list (list A)) k i d :
  Forall (fun r => length r = k) rows -> (i < length rows * k)%nat ->
  nth i (flatten rows) d = nth (i mod k) (nth (i / k) rows []) d.
Proof.
  intros H; revert i; induction H as [|r rows Hr _ IH]; intros i Hi;
    simpl in Hi; [lia|].
  assert (Hk : (0 < k)%nat) by lia.
  unfold flatten in IH |- *. simpl.
  destruct (Nat.lt_ge_cases i k) as [Hlt|Hge].
  - rewrite app_nth1 by lia. now rewrite Nat.div_small, Nat.mod_small by lia.
  - rewrite app_nth2 by lia. rewrite Hr, IH by lia.
    replace i with ((i - k) + 1 * k)%nat at 3 4 by lia.
    rewrite Nat.div_add, Nat.Div0.mod_add by lia.
    replace (((i - k) / k + 1))%nat with (S ((i - k) / k)) by lia. reflexivity.
Qed.

Lemma removelast_length A (l : list A) : length (removelast l) = pred (length l).
Proof.
  induction l as [|a l IH]; [reflexivity|].
  destruct l as [|b l]; [reflexivity|]. simpl in IH |- *. now rewrite IH.
Qed.

Lemma removelast_nth A (l : list A) j d :
  (j < pred (length l))%nat -> nth j (removelast l) d = nth j l d.
Proof.
  revert j; induction l as [|a l IH]; intros j H; simpl in H; [lia|].
  destruct l as [|b l]; [simpl in H; lia|].
  destruct j as [|j]; [reflexivity|]. simpl in H.
  change (nth j (removelast (b :: l)) d = nth j (b :: l) d). apply IH. simpl. lia.
Qed.



Section BackgroundIndex.

(** [F.softmax] keeps the shape of its input. *)
Hypothesis softmax_length : forall row, length (softmax row) = length row.


End BackgroundIndex.

(** ** Inference returns a result *)

Lemma index_select_some A (x : list A) idxs :
  Forall (fun i => (i < length x)%nat) idxs ->
  exists r, index_select x idxs = Some r /\ length r = length idxs.
Proof.
  induction 1 as [|i idxs Hi _ [r [Hr Hl]]]; simpl.
  - exists []. auto.
  - destruct (nth_error x i) as [a|] eqn:E.
    + rewrite Hr. exists (a :: r). simpl. auto.
    + apply nth_error_None in E. lia.
Qed.

Lemma masked_select_Forall A (P : A -> Prop) (mask : list bool) (x : list A) :
  Forall P x -> Forall P (masked_select mask x).
Proof.
  intros H. apply Forall_forall. intros a Ha. apply masked_select_In in Ha.
  rewrite Forall_forall in H. auto.
Qed.

Lemma masked_select_length2 A B (mask : list bool) (x : list A) (y : list B) :
  length x = length y ->
  length (masked_select mask x) = length (masked_select mask y).
Proof.
  revert x y; induction mask as [|b mask IH]; intros [|a x] [|c y] H; simpl in H |- *;
    try discriminate; auto.
  destruct b; simpl; auto.
Qed.

(** With matches that index the ground truth of the image,
    [get_ground_truth] raises no IndexError on it. *)
Lemma get_ground_truth_image_returns anchors_per_image targets_per_image :
  length (gt_classes_of targets_per_image) = length (gt_boxes targets_per_image) ->
  Forall (fun i => (i < length (gt_boxes targets_per_image))%nat)
         (fst (matcher (pairwise_iou (gt_boxes targets_per_image) anchors_per_image))) ->
  exists r, get_ground_truth_image anchors_per_image targets_per_image = Some r.
Proof.
  intros Hl Hm. unfold get_ground_truth_image.
  destruct (matcher (pairwise_iou (gt_boxes targets_per_image) anchors_per_image))
    as [idxs labels].
  simpl in Hm. destruct (0 <? length (gt_boxes targets_per_image))%nat.
  - destruct (index_select_some _ Hm) as [r1 [E1 _]].
    rewrite <- Hl in Hm. destruct (index_select_some _ Hm) as [r2 [E2 _]].
    rewrite E1, E2. eexists. reflexivity.
  - eexists. reflexivity.
Qed.

Section Returns.

Hypothesis sort_descending_spec : forall l, argsort_of descending 0 l (sort_descending l).
Hypothesis softmax_length : forall row, length (softmax row) = length row.
Hypothesis apply_deltas_length : forall d a,
  length d = length a -> length (apply_deltas d a) = length d.
Hypothesis batched_nms_range : forall b s c t,
  Forall (fun i => (i < length s)%nat) (batched_nms b s c t).

Lemma level_scores_length box_cls_i :
  Forall (fun row => length row = S num_classes) box_cls_i ->
  length (level_scores box_cls_i) = (length box_cls_i * num_classes)%nat.
Proof using softmax_length.
  intros H. unfold level_scores.
  rewrite (@flatten_length _ _ num_classes); [now rewrite length_map|].
  induction H as [|row rows Hr _ IH]; simpl; constructor; auto.
  now rewrite removelast_length, softmax_length, Hr.
Qed.

Lemma inference_level_returns box_cls_i box_reg_i anchors_i :
  Forall (fun row => length row = S num_classes) box_cls_i ->
  length box_reg_i = length box_cls_i -> length anchors_i = length box_cls_i ->
  exists b s c, inference_level box_cls_i box_reg_i anchors_i = Some (b, s, c)
                /\ length b = length s /\ length c = length s.
Proof using sort_descending_spec softmax_length apply_deltas_length.
  intros Hrows Hd Ha. unfold inference_level, level_topk.
  set (flat := level_scores box_cls_i).
  set (idxs := firstn (num_topk box_reg_i) (sort_descending flat)).
  set (prob := firstn (num_topk box_reg_i)
                      (map (fun i => nth i flat 0) (sort_descending flat))).
  assert (Hlen : length prob = length idxs).
  { unfold prob, idxs. now rewrite !length_firstn, length_map. }
  assert (Hidx : Forall (fun i => (i < length flat)%nat) idxs).
  { apply Forall_forall. intros i Hi. unfold idxs in Hi. apply firstn_In in Hi.
    destruct (sort_descending_spec flat) as [Hp _].
    assert (In i (seq 0 (length flat))) as Hin by (eapply Permutation_in; eauto).
    apply in_seq in Hin. lia. }
  set (keep := keep_idxs prob).
  assert (Hsel : Forall (fun i => (i < length flat)%nat) (masked_select keep idxs))
    by now apply masked_select_Forall.
  assert (Hanchor : Forall (fun i => (i < length box_cls_i)%nat)
                      (map (fun i => (i / num_classes)%nat) (masked_select keep idxs))).
  { apply Forall_forall. intros a Hin. apply in_map_iff in Hin.
    destruct Hin as [i [<- Hi]]. rewrite Forall_forall in Hsel.
    specialize (Hsel i Hi). unfold flat in Hsel.
    rewrite (level_scores_length Hrows) in Hsel.
    apply Nat.Div0.div_lt_upper_bound. lia. }
  destruct (@index_select_some _ box_reg_i _
              ltac:(rewrite Hd; exact Hanchor)) as [r1 [E1 L1]].
  destruct (@index_select_some _ anchors_i _
              ltac:(rewrite Ha; exact Hanchor)) as [r2 [E2 L2]].
  rewrite E1, E2. eexists _, _, _. split; [reflexivity|].
  rewrite !length_map in L1, L2 |- *.
  rewrite apply_deltas_length by lia.
  split; [rewrite L1|]; apply masked_select_length2; auto.
Qed.

Lemma inference_levels_returns box_cls box_delta anchors :
  level_shapes box_cls box_delta anchors ->
  exists b s c, inference_levels box_cls box_delta anchors = Some (b, s, c)
                /\ length b = length s /\ length c = length s.
Proof using sort_descending_spec softmax_length apply_deltas_length.
  revert box_delta anchors.
  induction box_cls as [|box_cls_i box_cls IH]; intros [|box_reg_i box_delta]
    [|anchors_i anchors] H; simpl in H |- *;
    try (exists [], [], []; auto; fail).
  destruct H as [[Hrows [Hd Ha]] Hrest].
  destruct (@inference_level_returns box_cls_i box_reg_i anchors_i Hrows Hd Ha) as [b1 [s1 [c1 [E1 [Lb1 Lc1]]]]].
  destruct (IH _ _ Hrest) as [b2 [s2 [c2 [E2 [Lb2 Lc2]]]]].
  rewrite E1, E2. eexists _, _, _. split; [reflexivity|].
  rewrite !length_app. lia.
Qed.

(** On inputs of the expected shapes [inference_single_image] raises no
    IndexError: it returns a result. *)
Lemma inference_single_image_returns box_cls box_delta anchors :
  level_shapes box_cls box_delta anchors ->
  exists result, inference_single_image box_cls box_delta anchors = Some result.
Proof using sort_descending_spec softmax_length apply_deltas_length batched_nms_range.
  intros H. unfold inference_single_image.
  destruct (@inference_levels_returns box_cls box_delta anchors H) as [b [s [c [E [Lb Lc]]]]].
  rewrite E.
  set (keep := firstn max_detections_per_image (batched_nms b s c nms_threshold)).
  assert (Hk : Forall (fun i => (i < length s)%nat) keep).
  { apply Forall_forall. intros i Hi. unfold keep in Hi. apply firstn_In in Hi.
    pose proof (batched_nms_range b s c nms_threshold) as Hr.
    rewrite Forall_forall in Hr. auto. }
  destruct (@index_select_some _ b keep ltac:(rewrite Lb; exact Hk)) as [rb [Eb _]].
  destruct (@index_select_some _ s keep Hk) as [rs [Es _]].
  destruct (@index_select_some _ c keep ltac:(rewrite Lc; exact Hk)) as [rc [Ec _]].
  rewrite Eb, Es, Ec. eexists. reflexivity.
Qed.

End Returns.

(** ** Class targets and the masks of the losses *)

Lemma index_select_nth A (x : list A) idxs r d j :
  index_select x idxs = Some r -> (j < length idxs)%nat ->
  length r = length idxs /\ nth j r d = nth (nth j idxs 0%nat) x d.
Proof.
  intros H Hj. split.
  - clear Hj. revert r H; induction idxs as [|i idxs IH]; intros r H; simpl in H.
    + now inversion H.
    + destruct (nth_error x i) as [a|]; [|discriminate].
      destruct (index_select x idxs) as [r'|]; [|discriminate].
      inversion H. simpl. now rewrite (IH r' eq_refl).
  - revert r j H Hj; induction idxs as [|i idxs IH]; intros r j H Hj;
      simpl in H, Hj; [lia|].
    destruct (nth_error x i) as [a|] eqn:E; [|discriminate].
    destruct (index_select x idxs) as [r'|]; [|discriminate].
    inversion H. destruct j as [|j]; simpl.
    + symmetry. now apply nth_error_nth.
    + apply IH; [reflexivity | lia].
Qed.

(** X1.  On an image with ground truth the class target of an anchor is -1
    where the matcher labels it -1, [num_classes] where it labels it 0, and
    the class of the matched instance elsewhere; the regression targets are
    the deltas to the matched boxes. *)
Theorem X1_class_targets (anchors_per_image : list (list Q))
    (targets_per_image : instances) gt_classes_i deltas_i :
  get_ground_truth_image anchors_per_image targets_per_image
  = Some (gt_classes_i, deltas_i) ->
  (0 < length (gt_boxes targets_per_image))%nat ->
  let idxs := fst (matcher (pairwise_iou (gt_boxes targets_per_image) anchors_per_image)) in
  let labels := snd (matcher (pairwise_iou (gt_boxes targets_per_image) anchors_per_image)) in
  length labels = length idxs ->
  length gt_classes_i = length idxs
  /\ (forall j, (j < length idxs)%nat ->
        nth j gt_classes_i 0%Z
        = if (nth j labels 0 =? -1)%Z then (-1)%Z
          else if (nth j labels 0 =? 0)%Z then K
          else nth (nth j idxs 0%nat) (gt_classes_of targets_per_image) 0%Z)
  /\ (exists matched_gt_boxes,
        index_select (gt_boxes targets_per_image) idxs = Some matched_gt_boxes
        /\ deltas_i = get_deltas anchors_per_image matched_gt_boxes).
Proof.
  intros H Hgt idxs labels Hl. unfold get_ground_truth_image in H.
  unfold idxs, labels in Hl |- *. clear idxs labels.
  destruct (matcher (pairwise_iou (gt_boxes targets_per_image) anchors_per_image))
    as [idxs labels].
  simpl in Hl |- *. apply Nat.ltb_lt in Hgt. rewrite Hgt in H.
  destruct (index_select (gt_boxes targets_per_image) idxs) as [boxes|] eqn:Eb;
    [|discriminate].
  destruct (index_select (gt_classes_of targets_per_image) idxs) as [cls|] eqn:Ec;
    [|discriminate].
  inversion H. clear H. split; [|split].
  - rewrite !masked_fill_length. destruct idxs as [|i idxs'].
    + simpl in Ec. now inversion Ec.
    + now destruct (@index_select_nth _ _ _ _ 0%Z 0%nat Ec ltac:(simpl; lia)).
  - intros j Hj. destruct (@index_select_nth _ _ _ _ 0%Z j Ec Hj) as [Hc Hn].
    rewrite masked_fill_nth by (rewrite masked_fill_length; lia).
    rewrite (@nth_map_lt _ _ _ _ j 0%Z) by lia.
    destruct (nth j labels 0 =? -1)%Z; [reflexivity|].
    rewrite masked_fill_nth by lia.
    rewrite (@nth_map_lt _ _ _ _ j 0%Z) by lia.
    destruct (nth j labels 0 =? 0)%Z; [reflexivity | exact Hn].
  - exists boxes. auto.
Qed.

Lemma index_select_range A (x : list A) idxs r :
  index_select x idxs = Some r -> Forall (fun i => (i < length x)%nat) idxs.
Proof.
  revert r; induction idxs as [|i idxs IH]; intros r H; simpl in H; constructor.
  - destruct (nth_error x i) as [a|] eqn:E; [|discriminate].
    apply nth_error_Some. congruence.
  - destruct (nth_error x i) as [a|]; [|discriminate].
    destruct (index_select x idxs) as [r'|]; [|discriminate]. now apply IH with r'.
Qed.

Lemma matched_class_target anchors_per_image targets_per_image gt_classes_i deltas_i j :
  get_ground_truth_image anchors_per_image targets_per_image
  = Some (gt_classes_i, deltas_i) ->
  (0 < length (gt_boxes targets_per_image))%nat ->
  let idxs := fst (matcher (pairwise_iou (gt_boxes targets_per_image) anchors_per_image)) in
  let labels := snd (matcher (pairwise_iou (gt_boxes targets_per_image) anchors_per_image)) in
  length labels = length idxs -> (j < length idxs)%nat ->
  length gt_classes_i = length idxs
  /\ exists c, In c (gt_classes_of targets_per_image)
       /\ nth j gt_classes_i 0%Z
          = (if (nth j labels 0 =? -1)%Z then (-1)%Z
             else if (nth j labels 0 =? 0)%Z then K else c).
Proof.
  intros H Hgt idxs labels Hl Hj. unfold get_ground_truth_image in H.
  unfold idxs, labels in Hl, Hj |- *. clear idxs labels.
  destruct (matcher (pairwise_iou (gt_boxes targets_per_image) anchors_per_image))
    as [idxs labels].
  simpl in Hl, Hj |- *. apply Nat.ltb_lt in Hgt. rewrite Hgt in H.
  destruct (index_select (gt_boxes targets_per_image) idxs) as [boxes|];
    [|discriminate].
  destruct (index_select (gt_classes_of targets_per_image) idxs) as [cls|] eqn:Ec;
    [|discriminate].
  inversion H. clear H.
  destruct (@index_select_nth _ _ _ _ 0%Z j Ec Hj) as [Hc Hn].
  pose proof (index_select_range _ _ Ec) as Hr. rewrite Forall_forall in Hr.
  assert (Hin : In (nth (nth j idxs 0%nat) (gt_classes_of targets_per_image) 0%Z)
                   (gt_classes_of targets_per_image)).
  { apply nth_In, Hr, nth_In. exact Hj. }
  split; [now rewrite !masked_fill_length|].
  exists (nth (nth j idxs 0%nat) (gt_classes_of targets_per_image) 0%Z).
  split; [exact Hin|].
  rewrite masked_fill_nth by (rewrite masked_fill_length; lia).
  rewrite (@nth_map_lt _ _ _ _ j 0%Z) by lia.
  destruct (nth j labels 0 =? -1)%Z; [reflexivity|].
  rewrite masked_fill_nth by lia.
  rewrite (@nth_map_lt _ _ _ _ j 0%Z) by lia.
  destruct (nth j labels 0 =? 0)%Z; [reflexivity | exact Hn].
Qed.

(** X2.  When the classes of the ground truth are in [0, K), the masks that
    [losses] computes from the class targets are the labels of the matcher:
    an anchor is valid unless labelled -1, BACKGROUND when labelled 0 and
    FOREGROUND when labelled neither. *)
Theorem X2_masks_are_labels (anchors_per_image : list (list Q))
    (targets_per_image : instances) gt_classes_i deltas_i :
  get_ground_truth_image anchors_per_image targets_per_image
  = Some (gt_classes_i, deltas_i) ->
  (0 < length (gt_boxes targets_per_image))%nat ->
  Forall (fun c => (0 <= c < K)%Z) (gt_classes_of targets_per_image) ->
  let idxs := fst (matcher (pairwise_iou (gt_boxes targets_per_image) anchors_per_image)) in
  let labels := snd (matcher (pairwise_iou (gt_boxes targets_per_image) anchors_per_image)) in
  length labels = length idxs ->
  forall j, (j < length idxs)%nat ->
    nth j (valid_idxs gt_classes_i) false = negb (nth j labels 0 =? -1)%Z
    /\ nth j (background_idxs gt_classes_i) false
       = negb (nth j labels 0 =? -1)%Z && (nth j labels 0 =? 0)%Z
    /\ nth j (foreground_idxs gt_classes_i) false
       = negb (nth j labels 0 =? -1)%Z && negb (nth j labels 0 =? 0)%Z.
Proof.
  intros H Hgt Hcls idxs labels Hl j Hj.
  destruct (@matched_class_target _ _ _ _ j H Hgt Hl Hj) as [Hlen [c [Hin Hn]]].
  fold idxs in Hlen. fold labels in Hn.
  rewrite Forall_forall in Hcls. specialize (Hcls c Hin).
  unfold valid_idxs, background_idxs, foreground_idxs.
  rewrite !(@nth_map_lt _ _ _ _ j 0%Z) by lia. rewrite Hn.
  assert (HK : (0 <= K)%Z) by (unfold K; lia).
  destruct (nth j labels 0 =? -1)%Z; [|destruct (nth j labels 0 =? 0)%Z];
    cbn [negb andb]; repeat split;
    repeat match goal with
           | |- context [(?a <=? ?b)%Z] => destruct (Z.leb_spec a b)
           | |- context [(?a =? ?b)%Z] => destruct (Z.eqb_spec a b)
           end; cbn [negb andb]; try reflexivity; lia.
Qed.

(** The loop of [get_ground_truth] image by image: the rows it returns and
    the images at which it stops. *)
Lemma get_ground_truth_spec (anchors : list (list (list Q)))
    (targets : list instances) :
  let n := Nat.min (length anchors) (length targets) in
  let none := {| gt_boxes := []; gt_classes_of := [] |} in
  (forall gt_classes deltas,
      get_ground_truth anchors targets = Some (gt_classes, deltas) ->
      length gt_classes = n /\ length deltas = n
      /\ forall i, (i < n)%nat ->
           get_ground_truth_image (nth i anchors []) (nth i targets none)
           = Some (nth i gt_classes [], nth i deltas []))
  /\ (get_ground_truth anchors targets = None <->
      exists i, (i < n)%nat
                /\ get_ground_truth_image (nth i anchors []) (nth i targets none) = None).
Proof.
  intros n none. unfold n. clear n. split.
  - revert targets. induction anchors as [|a anchors IH]; intros [|t targets] gc ds H;
      simpl in H; try (inversion H; simpl; repeat split; auto; intros i Hi; lia).
    destruct (get_ground_truth_image a t) as [[c d]|] eqn:E; [|discriminate].
    destruct (get_ground_truth anchors targets) as [[cs ds']|] eqn:E'; [|discriminate].
    inversion H. subst gc ds. clear H.
    destruct (IH targets cs ds' E') as [H1 [H2 H3]]. simpl.
    repeat split; try lia.
    intros [|i] Hi; [exact E | apply H3; lia].
  - revert targets. induction anchors as [|a anchors IH]; intros [|t targets]; simpl;
      try (split; [discriminate | intros [i [Hi _]]; lia]).
    destruct (get_ground_truth_image a t) as [[c d]|] eqn:E.
    + destruct (get_ground_truth anchors targets) as [[cs ds']|] eqn:E'.
      * split; [discriminate|]. intros [[|i] [Hi Hnone]]; [congruence|].
        assert (get_ground_truth anchors targets = None) as Hn
          by (apply IH; exists i; split; [lia | exact Hnone]).
        congruence.
      * split; [|reflexivity]. intros _.
        destruct (proj1 (IH targets) E') as [i [Hi Hnone]].
        exists (S i). split; [lia | exact Hnone].
    + split; [|reflexivity]. intros _. exists 0%nat. split; [lia | exact E].
Qed.

(** X3.  [get_ground_truth] returns one row of class targets and one of
    deltas per image, as many as the shorter of its two lists has, and row
    [i] is the assignment of image [i] alone; an image whose assignment
    fails makes the whole call fail. *)
Theorem X3_ground_truth_rows (anchors : list (list (list Q)))
    (targets : list instances) :
  let n := Nat.min (length anchors) (length targets) in
  let none := {| gt_boxes := []; gt_classes_of := [] |} in
  (forall gt_classes deltas,
      get_ground_truth anchors targets = Some (gt_classes, deltas) ->
      length gt_classes = n /\ length deltas = n
      /\ forall i, (i < n)%nat ->
           get_ground_truth_image (nth i anchors []) (nth i targets none)
           = Some (nth i gt_classes [], nth i deltas []))
  /\ ((exists i, (i < n)%nat
                 /\ get_ground_truth_image (nth i anchors []) (nth i targets none) = None)
      -> get_ground_truth anchors targets = None).
Proof.
  intros n none.
  destruct (get_ground_truth_spec anchors targets) as [Hrows Hfails].
  split; [exact Hrows | exact (proj2 Hfails)].
Qed.

(** ** What the losses do not read *)

Lemma masked_select_ext A (mask : list bool) (x x' : list A) d :
  length x = length mask -> length x' = length mask ->
  (forall i, nth i mask false = true -> nth i x d = nth i x' d) ->
  masked_select mask x = masked_select mask x'.
Proof.
  revert x x'; induction mask as [|b mask IH]; intros [|a x] [|a' x'] Hx Hx' H;
    simpl in Hx, Hx' |- *; try discriminate; auto.
  rewrite (IH x x') by (try lia; intros i; apply (H (S i))).
  destruct b; [|reflexivity].
  pose proof (H 0%nat eq_refl) as E. simpl in E. now rewrite E.
Qed.

Lemma loss_for_all_indices_ext pred pred' g :
  length pred = length g -> length pred' = length g ->
  (forall i, nth i (valid_idxs g) false = true -> nth i pred [] = nth i pred' []) ->
  loss_for_all_indices pred g = loss_for_all_indices pred' g.
Proof.
  intros Hl Hl' H. unfold loss_for_all_indices.
  rewrite (@masked_select_ext _ (valid_idxs g) pred pred' [])
    by (unfold valid_idxs; rewrite ?length_map; auto).
  now rewrite (map_const_repeat 0 pred), (map_const_repeat 0 pred'), Hl, Hl'.
Qed.

Lemma gt_classes_target_ext pred pred' g :
  length pred = length g -> length pred' = length g ->
  (forall i, nth i (valid_idxs g) false = true -> nth i pred [] = nth i pred' []) ->
  masked_select (valid_idxs g) (gt_classes_target pred g)
  = masked_select (valid_idxs g) (gt_classes_target pred' g).
Proof.
  intros Hl Hl' H. apply masked_select_ext with (d := []).
  - unfold gt_classes_target, valid_idxs. rewrite map2_length, length_map; auto.
  - unfold gt_classes_target, valid_idxs. rewrite map2_length, length_map; auto.
  - intros i Hi. specialize (H i Hi).
    destruct (Nat.lt_ge_cases i (length g)) as [Hlt|Hge].
    + unfold gt_classes_target.
      rewrite !(@nth_map2 _ _ _ _ _ _ i [] 0%Z []) by lia. now rewrite H.
    + rewrite !nth_overflow; auto;
        unfold gt_classes_target; rewrite map2_length; lia.
Qed.

(** X4.  Under both variants the classification loss does not read the
    logits of an IGNORE anchor: two predictions that agree on the valid
    anchors have the same ["loss_cls"]. *)
Theorem X4_loss_cls_ignores (n : nat) (gt_classes : list (list Z))
    (gt_anchors_deltas : list (list (list Q)))
    (pred_class_logits pred_class_logits' pred_anchor_deltas : list (list Q)) :
  let g := flatten gt_classes in
  length pred_class_logits = length g -> length pred_class_logits' = length g ->
  (forall i, nth i (valid_idxs g) false = true ->
             nth i pred_class_logits [] = nth i pred_class_logits' []) ->
  loss_cls (losses n gt_classes gt_anchors_deltas pred_class_logits pred_anchor_deltas)
  = loss_cls (losses n gt_classes gt_anchors_deltas pred_class_logits' pred_anchor_deltas).
Proof.
  intros g Hl Hl' H. unfold losses. simpl. fold g. destruct loss_name.
  - unfold focal_loss_cls.
    rewrite (gt_classes_target_ext _ _ _ Hl Hl' H).
    now rewrite (@masked_select_ext _ (valid_idxs g) pred_class_logits
                   pred_class_logits' [])
      by (unfold valid_idxs; rewrite ?length_map; auto).
  - unfold multibox_loss_cls, mined_loss, hard_negative, loss_for_neg_indices.
    now rewrite (loss_for_all_indices_ext _ _ _ Hl Hl' H).
Qed.

(** X5.  The regression loss reads the predicted deltas and the regression
    targets of the FOREGROUND anchors only: inputs that agree on them have
    the same ["loss_box_reg"]. *)
Theorem X5_loss_box_reg_foreground (n n' : nat) (gt_classes : list (list Z))
    (gt_anchors_deltas gt_anchors_deltas' : list (list (list Q)))
    (pred_class_logits pred_class_logits' pred_anchor_deltas pred_anchor_deltas'
       : list (list Q)) :
  let g := flatten gt_classes in
  length pred_anchor_deltas = length g -> length pred_anchor_deltas' = length g ->
  length (flatten gt_anchors_deltas) = length g ->
  length (flatten gt_anchors_deltas') = length g ->
  (forall i, nth i (foreground_idxs g) false = true ->
             nth i pred_anchor_deltas [] = nth i pred_anchor_deltas' []
             /\ nth i (flatten gt_anchors_deltas) []
                = nth i (flatten gt_anchors_deltas') []) ->
  loss_box_reg (losses n gt_classes gt_anchors_deltas pred_class_logits pred_anchor_deltas)
  = loss_box_reg (losses n' gt_classes gt_anchors_deltas' pred_class_logits'
                         pred_anchor_deltas').
Proof.
  intros g H1 H2 H3 H4 H. unfold losses. simpl. fold g. unfold box_reg_loss.
  rewrite (@masked_select_ext _ (foreground_idxs g) pred_anchor_deltas
             pred_anchor_deltas' [])
    by (unfold foreground_idxs; rewrite ?length_map; auto; intros i Hi; apply H, Hi).
  now rewrite (@masked_select_ext _ (foreground_idxs g) (flatten gt_anchors_deltas)
                 (flatten gt_anchors_deltas') [])
    by (unfold foreground_idxs; rewrite ?length_map; auto; intros i Hi; apply H, Hi).
Qed.

(** ** Which negatives are mined *)

Lemma count_true_map2_andb_r x y : (count_true (map2 andb x y) <= count_true y)%nat.
Proof.
  revert y; induction x as [|a x IH]; intros [|b y]; simpl; try (unfold count_true; simpl; lia).
  rewrite !count_true_cons. specialize (IH y). destruct a, b; simpl; lia.
Qed.

Lemma count_true_map2_andb_le x y : (count_true (map2 andb x y) <= count_true x)%nat.
Proof.
  revert y; induction x as [|a x IH]; intros [|b y]; simpl; try (unfold count_true; simpl; lia).
  rewrite !count_true_cons. specialize (IH y). destruct a, b; simpl; lia.
Qed.

Lemma strongly_sorted_nth A (R : A -> A -> Prop) (l : list A) d k k' :
  StronglySorted R l -> (k < k')%nat -> (k' < length l)%nat ->
  R (nth k l d) (nth k' l d).
Proof.
  intros H; revert k k'; induction H as [|a l Hs IH Ha]; intros k k' Hk Hk';
    simpl in Hk'; [lia|].
  destruct k' as [|k']; [lia|]. destruct k as [|k]; simpl.
  - rewrite Forall_forall in Ha. apply Ha, nth_In. lia.
  - apply IH; lia.
Qed.

Section Mining.

Hypothesis argsort_float_spec : forall l, argsort_of Qle 0 l (argsort_float l).
Hypothesis argsort_long_spec : forall l, argsort_of le 0%nat l (argsort_long l).

Lemma rank_row_permutation row :
  Permutation (rank_row row) (seq 0 (length row)).
Proof using argsort_float_spec argsort_long_spec.
  unfold rank_row. destruct (argsort_long_spec (argsort_float (map Qopp row))) as [H _].
  now rewrite (argsort_float_length' argsort_float_spec), length_map in H.
Qed.

(** The entry of rank [k] is the [k]-th entry of the sorted row. *)
Lemma rank_row_sorted row j j' :
  (j < length row)%nat -> (j' < length row)%nat ->
  (nth j (rank_row row) 0 < nth j' (rank_row row) 0)%nat ->
  nth j' row 0 <= nth j row 0.
Proof using argsort_float_spec argsort_long_spec.
  intros Hj Hj' Hlt. set (m := length row) in Hj, Hj'.
  set (v := map Qopp row).
  assert (Hv : length v = m) by (unfold v; now rewrite length_map).
  destruct (argsort_float_spec v) as [Hp Hs]. rewrite Hv in Hp.
  unfold rank_row in Hlt. fold v in Hlt.
  set (p := argsort_float v) in Hp, Hs, Hlt.
  assert (Hlp : length p = m).
  { apply Permutation_length in Hp. now rewrite length_seq in Hp. }
  destruct (argsort_long_spec p) as [Hq Hsq]. rewrite Hlp in Hq.
  set (q := argsort_long p) in Hq, Hsq, Hlt.
  assert (Hid : map (fun i => nth i p 0%nat) q = seq 0 m).
  { apply sorted_nat_unique.
    - apply Sorted_StronglySorted; [intros x y z; apply Nat.le_trans | exact Hsq].
    - apply seq_sorted.
    - transitivity (map (fun i => nth i p 0%nat) (seq 0 m)).
      + now apply Permutation_map.
      + rewrite <- Hlp at 1. now rewrite map_nth_seq_id. }
  assert (Hlq : length q = m).
  { apply Permutation_length in Hq. now rewrite length_seq in Hq. }
  assert (Hpq : forall i, (i < m)%nat -> nth (nth i q 0%nat) p 0%nat = i).
  { intros i Hi.
    assert (E : nth i (map (fun i => nth i p 0%nat) q) 0%nat = nth i (seq 0 m) 0%nat)
      by now rewrite Hid.
    rewrite (@nth_map_lt _ _ _ _ i 0%nat) in E by lia.
    now rewrite seq_nth in E by lia. }
  pose proof (permutation_seq_nth Hq Hj) as Hqj.
  pose proof (permutation_seq_nth Hq Hj') as Hqj'.
  pose proof (Sorted_StronglySorted Qle_trans Hs) as Hss.
  pose proof (@strongly_sorted_nth _ _ _ 0 _ _ Hss Hlt
                ltac:(rewrite length_map, Hlp; exact Hqj')) as Hle.
  rewrite !(@nth_map_lt _ _ _ _ _ 0%nat) in Hle by lia.
  rewrite (Hpq j Hj), (Hpq j' Hj') in Hle. unfold v in Hle.
  rewrite !(@nth_map_lt _ _ _ _ _ 0) in Hle by (fold m; lia).
  apply Qopp_le_compat in Hle. now rewrite !Qopp_opp in Hle.
Qed.

Lemma hard_negative_image_nth pred_img gt_img j :
  length pred_img = length gt_img -> (j < length gt_img)%nat ->
  nth j (hard_negative_image pred_img gt_img) false
  = (nth j (rank_row (loss_for_neg_indices pred_img gt_img)) 0
     <? Z.to_nat (multibox_loss_neg_pos_ratio
                  * Z.of_nat (count_true (foreground_idxs gt_img))))%nat
    && nth j (background_idxs gt_img) false.
Proof using argsort_float_spec argsort_long_spec.
  intros Hl Hj. unfold hard_negative_image. rewrite hard_negative_row_nat.
  assert (Hr : length (rank_row (loss_for_neg_indices pred_img gt_img)) = length gt_img).
  { rewrite (Permutation_length (rank_row_permutation _)), length_seq.
    now apply loss_for_neg_indices_length. }
  rewrite (@nth_map2 _ _ _ _ _ _ j false false false);
    unfold background_idxs; rewrite ?length_map; try lia.
  now rewrite (@nth_map_lt _ _ _ _ j 0%nat) by lia.
Qed.

Lemma hard_negative_image_bound pred_img gt_img :
  length pred_img = length gt_img ->
  (count_true (hard_negative_image pred_img gt_img)
   <= Nat.min (Z.to_nat (multibox_loss_neg_pos_ratio
                         * Z.of_nat (count_true (foreground_idxs gt_img))))
              (count_true (background_idxs gt_img)))%nat.
Proof using argsort_float_spec argsort_long_spec.
  intros Hl. unfold hard_negative_image. rewrite hard_negative_row_nat.
  apply Nat.min_glb; [|apply count_true_map2_andb_r].
  etransitivity; [apply count_true_map2_andb_le|].
  rewrite (count_true_perm
             (Permutation_map _ (rank_row_permutation
                                   (loss_for_neg_indices pred_img gt_img)))).
  rewrite count_true_below. apply Nat.le_min_l.
Qed.

Lemma hard_negative_image_hardest pred_img gt_img j j' :
  length pred_img = length gt_img ->
  nth j (hard_negative_image pred_img gt_img) false = true ->
  nth j' (background_idxs gt_img) false = true ->
  nth j' (hard_negative_image pred_img gt_img) false = false ->
  nth j' (per_anchor_ce pred_img gt_img) 0 <= nth j (per_anchor_ce pred_img gt_img) 0.
Proof using argsort_float_spec argsort_long_spec.
  intros Hl Hj Hbg' Hj'.
  assert (Lj : (j < length gt_img)%nat).
  { destruct (Nat.lt_ge_cases j (length gt_img)) as [H|H]; auto.
    rewrite nth_overflow in Hj; [discriminate|].
    unfold hard_negative_image. rewrite map2_length;
      unfold hard_negative_row, background_idxs; rewrite !length_map.
    - rewrite (Permutation_length (rank_row_permutation _)), length_seq.
      rewrite loss_for_neg_indices_length; lia.
    - rewrite (Permutation_length (rank_row_permutation _)), length_seq.
      rewrite loss_for_neg_indices_length; lia. }
  assert (Lj' : (j' < length gt_img)%nat).
  { destruct (Nat.lt_ge_cases j' (length gt_img)) as [H|H]; auto.
    rewrite nth_overflow in Hbg'; [discriminate|].
    unfold background_idxs. now rewrite length_map. }
  rewrite hard_negative_image_nth in Hj, Hj' by auto.
  apply andb_true_iff in Hj. destruct Hj as [Hr Hbg].
  rewrite Hbg', andb_true_r in Hj'.
  apply Nat.ltb_lt in Hr. apply Nat.ltb_ge in Hj'.
  assert (Hlt : (nth j (rank_row (loss_for_neg_indices pred_img gt_img)) 0
                 < nth j' (rank_row (loss_for_neg_indices pred_img gt_img)) 0)%nat) by lia.
  apply rank_row_sorted in Hlt; try (rewrite loss_for_neg_indices_length; lia).
  rewrite loss_for_neg_indices_eq in Hlt by auto.
  rewrite !(@nth_map2 _ _ _ _ _ _ _ [] 0%Z 0) in Hlt by lia.
  unfold background_idxs in Hbg, Hbg'.
  rewrite (@nth_map_lt _ _ _ _ j 0%Z) in Hbg by lia.
  rewrite (@nth_map_lt _ _ _ _ j' 0%Z) in Hbg' by lia.
  rewrite Hbg, Hbg' in Hlt. unfold per_anchor_ce.
  now rewrite !(@nth_map2 _ _ _ _ _ _ _ [] 0%Z 0) by lia.
Qed.

(** X6.  Whatever the losses are, an image contributes at most
    [neg_pos_ratio * numForegroundInThisImage] hard negatives and at most
    as many as it has BACKGROUND anchors. *)
Theorem X6_hard_negative_bound (n m b : nat) (gt_classes : list (list Z))
    (pred_class_logits : list (list Q)) :
  Forall (fun r => length r = m) gt_classes -> length gt_classes = n ->
  length pred_class_logits = (n * m)%nat -> (b < n)%nat ->
  let g := flatten gt_classes in
  let gt_b := nth b gt_classes [] in
  let hard_negative_b := nth b (view_rows n (hard_negative n pred_class_logits g)) [] in
  (Z.of_nat (count_true hard_negative_b)
   <= Z.max 0 (multibox_loss_neg_pos_ratio
               * Z.of_nat (count_true (foreground_idxs gt_b))))%Z
  /\ (count_true hard_negative_b <= count_true (background_idxs gt_b))%nat.
Proof using argsort_float_spec argsort_long_spec.
  intros Hr Hn Hp Hb g gt_b hn_b.
  destruct (@view_rows_shape _ n m pred_class_logits Hp) as [P1 P2].
  assert (Hrow : length (nth b (view_rows n pred_class_logits) []) = length gt_b).
  { rewrite Forall_forall in P2, Hr.
    rewrite (P2 (nth b (view_rows n pred_class_logits) [])) by (apply nth_In; lia).
    unfold gt_b. rewrite (Hr (nth b gt_classes [])) by (apply nth_In; lia).
    reflexivity. }
  unfold hn_b, g.
  rewrite (view_rows_hard_negative (argsort_float_length' argsort_float_spec)
             (argsort_long_length' argsort_long_spec) pred_class_logits Hr Hn Hp).
  rewrite (@nth_map2 _ _ _ _ _ _ b [] [] []) by lia.
  pose proof (hard_negative_image_bound _ _ Hrow) as Hbound.
  unfold gt_b in Hbound |- *.
  set (c := count_true (hard_negative_image (nth b (view_rows n pred_class_logits) [])
                                            (nth b gt_classes []))) in Hbound |- *.
  set (t := (multibox_loss_neg_pos_ratio
             * Z.of_nat (count_true (foreground_idxs (nth b gt_classes []))))%Z)
    in Hbound |- *.
  split; lia.
Qed.

(** X7.  The mined negatives are the hardest ones: in every image, a
    BACKGROUND anchor that is selected has a cross-entropy at least as
    large as every BACKGROUND anchor of the image that is not. *)
Theorem X7_hardest_negatives (n m b : nat) (gt_classes : list (list Z))
    (pred_class_logits : list (list Q)) :
  Forall (fun r => length r = m) gt_classes -> length gt_classes = n ->
  length pred_class_logits = (n * m)%nat -> (b < n)%nat ->
  let g := flatten gt_classes in
  let gt_b := nth b gt_classes [] in
  let ce_b := nth b (view_rows n (per_anchor_ce pred_class_logits g)) [] in
  let hard_negative_b := nth b (view_rows n (hard_negative n pred_class_logits g)) [] in
  forall j j',
    nth j hard_negative_b false = true ->
    nth j' (background_idxs gt_b) false = true ->
    nth j' hard_negative_b false = false ->
    nth j' ce_b 0 <= nth j ce_b 0.
Proof using argsort_float_spec argsort_long_spec.
  intros Hr Hn Hp Hb g gt_b ce_b hn_b.
  destruct (@view_rows_shape _ n m pred_class_logits Hp) as [P1 P2].
  assert (Hrow : length (nth b (view_rows n pred_class_logits) []) = length gt_b).
  { rewrite Forall_forall in P2, Hr.
    rewrite (P2 (nth b (view_rows n pred_class_logits) [])) by (apply nth_In; lia).
    unfold gt_b. rewrite (Hr (nth b gt_classes [])) by (apply nth_In; lia).
    reflexivity. }
  unfold hn_b, ce_b, g.
  rewrite (view_rows_hard_negative (argsort_float_length' argsort_float_spec)
             (argsort_long_length' argsort_long_spec) pred_class_logits Hr Hn Hp).
  rewrite (view_rows_per_anchor_ce pred_class_logits Hr Hn Hp).
  rewrite !(@nth_map2 _ _ _ _ _ _ b [] [] []) by lia.
  intros j j'. now apply hard_negative_image_hardest.
Qed.

(** X16.  Mining is done image by image: the hard negatives of an image
    depend on the logits and the class targets of that image only, not on
    the other images of the batch or on its place in the batch. *)
Theorem X16_mining_per_image (n n' m b b' : nat) (gt_classes gt_classes' : list (list Z))
    (pred_class_logits pred_class_logits' : list (list Q)) :
  Forall (fun r => length r = m) gt_classes -> length gt_classes = n ->
  length pred_class_logits = (n * m)%nat -> (b < n)%nat ->
  Forall (fun r => length r = m) gt_classes' -> length gt_classes' = n' ->
  length pred_class_logits' = (n' * m)%nat -> (b' < n')%nat ->
  nth b gt_classes [] = nth b' gt_classes' [] ->
  nth b (view_rows n pred_class_logits) [] = nth b' (view_rows n' pred_class_logits') [] ->
  nth b (view_rows n (hard_negative n pred_class_logits (flatten gt_classes))) []
  = nth b' (view_rows n' (hard_negative n' pred_class_logits' (flatten gt_classes'))) [].
Proof using argsort_float_spec argsort_long_spec.
  intros Hr Hn Hp Hb Hr' Hn' Hp' Hb' Hgt Hpred.
  destruct (@view_rows_shape _ n m pred_class_logits Hp) as [P1 _].
  destruct (@view_rows_shape _ n' m pred_class_logits' Hp') as [P1' _].
  rewrite (view_rows_hard_negative (argsort_float_length' argsort_float_spec)
             (argsort_long_length' argsort_long_spec) pred_class_logits Hr Hn Hp).
  rewrite (view_rows_hard_negative (argsort_float_length' argsort_float_spec)
             (argsort_long_length' argsort_long_spec) pred_class_logits' Hr' Hn' Hp').
  rewrite (@nth_map2 _ _ _ _ _ _ b [] [] []) by lia.
  rewrite (@nth_map2 _ _ _ _ _ _ b' [] [] []) by lia.
  rewrite Hgt, Hpred. reflexivity.
Qed.

End Mining.

Lemma Qsum_select_orb (x y : list bool) (v : list Q) :
  (forall i, nth i x false = true -> nth i y false = false) ->
  length x = length y ->
  Qsum (masked_select (map2 orb x y) v)
  == Qsum (masked_select x v) + Qsum (masked_select y v).
Proof.
  revert y v; induction x as [|a x IH]; intros [|b y] [|c v] H Hl; simpl in Hl |- *;
    try discriminate; try reflexivity.
  injection Hl as Hl. assert (IH' := IH y v (fun i => H (S i)) Hl).
  specialize (H 0%nat). simpl in H. destruct a; simpl.
  - rewrite (H eq_refl). simpl. rewrite IH'. apply Qplus_assoc.
  - destruct b; simpl; rewrite IH'; [|reflexivity].
    rewrite !Qplus_assoc. now rewrite (Qplus_comm c).
Qed.

Section Decomposition.

Hypothesis argsort_float_length : forall l, length (argsort_float l) = length l.
Hypothesis argsort_long_length : forall l, length (argsort_long l) = length l.

(** X8.  The Multibox classification loss is the cross-entropy summed over
    the FOREGROUND anchors plus the cross-entropy summed over the mined
    negatives, divided by [max(1, num_foreground)]. *)
Theorem X8_multibox_two_terms (n m : nat) (gt_classes : list (list Z))
    (gt_anchors_deltas : list (list (list Q)))
    (pred_class_logits pred_anchor_deltas : list (list Q)) :
  loss_name = Multibox ->
  Forall (fun r => length r = m) gt_classes -> length gt_classes = n ->
  length pred_class_logits = (n * m)%nat ->
  let g := flatten gt_classes in
  let ce := per_anchor_ce pred_class_logits g in
  loss_cls (losses n gt_classes gt_anchors_deltas pred_class_logits pred_anchor_deltas)
  == (Qsum (masked_select (foreground_idxs g) ce)
      + Qsum (masked_select (hard_negative n pred_class_logits g) ce))
     / max1 (count_true (foreground_idxs g)).
Proof using argsort_float_length argsort_long_length.
  intros Hname Hr Hn Hp g ce. unfold losses. rewrite Hname. simpl.
  unfold multibox_loss_cls. fold g. unfold g.
  rewrite (mined_loss_eq argsort_float_length argsort_long_length
             pred_class_logits Hr Hn Hp).
  pose proof (hard_negative_length argsort_float_length argsort_long_length
                pred_class_logits Hr Hn Hp) as Hh.
  rewrite Qsum_select_zeroed.
  - unfold selected. rewrite Qsum_select_orb.
    + fold g. fold ce. now rewrite Qplus_comm.
    + intros i Hi. apply background_not_foreground.
      now apply hard_negative_nth_background with (n := n) (pred := pred_class_logits).
    + unfold foreground_idxs. now rewrite length_map.
  - intros i. apply selected_valid.
  - unfold valid_idxs, selected. rewrite length_map, map2_length; [now rewrite Hh|].
    unfold foreground_idxs. now rewrite length_map.
Qed.

End Decomposition.

(** ** The detections of an image *)

Lemma masked_select_length_le A (mask : list bool) (x : list A) :
  (length (masked_select mask x) <= length x)%nat.
Proof.
  revert x; induction mask as [|b mask IH]; intros [|a x]; simpl; try lia.
  specialize (IH x). destruct b; simpl; lia.
Qed.

Lemma inference_levels_count box_cls box_delta anchors b s c :
  inference_levels box_cls box_delta anchors = Some (b, s, c) ->
  (length s <= length box_cls * topk_candidates)%nat /\ length c = length s.
Proof.
  revert box_delta anchors b s c.
  induction box_cls as [|box_cls_i box_cls IH]; intros [|box_reg_i box_delta]
    [|anchors_i anchors] b s c H; simpl in H;
    try (inversion H; simpl; split; [lia | reflexivity]).
  destruct (inference_level box_cls_i box_reg_i anchors_i) as [[[b1 s1] c1]|] eqn:E1;
    [|discriminate].
  destruct (inference_levels box_cls box_delta anchors) as [[[b2 s2] c2]|] eqn:E2;
    [|discriminate].
  inversion H. subst b s c. clear H.
  destruct (IH _ _ _ _ _ E2) as [H2 H2'].
  unfold inference_level, level_topk in E1.
  destruct (index_select box_reg_i _); [|discriminate].
  destruct (index_select anchors_i _); [|discriminate].
  inversion E1. subst s1 c1. clear E1.
  rewrite !length_app, length_map. simpl. split.
  - pose proof (masked_select_length_le
                  (keep_idxs (firstn (num_topk box_reg_i) (sorted_scores box_cls_i)))
                  (firstn (num_topk box_reg_i) (sorted_scores box_cls_i))) as Hle.
    rewrite length_firstn in Hle. unfold num_topk in Hle.
    unfold sorted_scores in Hle. unfold num_topk. lia.
  - rewrite H2'. f_equal. apply masked_select_length2.
    now rewrite !length_firstn, length_map.
Qed.

(** X9.  [inference_single_image] returns at most
    [max_detections_per_image] detections, taken from at most
    [topk_candidates] candidates per feature level, and the boxes, scores
    and classes it returns have one length. *)
Theorem X9_detection_count (box_cls box_delta anchors : list (list (list Q)))
    (result : detections) :
  inference_single_image box_cls box_delta anchors = Some result ->
  (length (scores result) <= max_detections_per_image)%nat
  /\ length (pred_boxes result) = length (scores result)
  /\ length (pred_classes result) = length (scores result)
  /\ exists boxes_all scores_all class_idxs_all,
       inference_levels box_cls box_delta anchors
       = Some (boxes_all, scores_all, class_idxs_all)
       /\ (length scores_all <= length box_cls * topk_candidates)%nat
       /\ Forall (fun s => In s scores_all) (scores result).
Proof.
  intros H. unfold inference_single_image in H.
  destruct (inference_levels box_cls box_delta anchors) as [[[b s] c]|] eqn:E;
    [|discriminate].
  destruct (index_select b _) as [rb|] eqn:Eb; [|discriminate].
  destruct (index_select s _) as [rs|] eqn:Es; [|discriminate].
  destruct (index_select c _) as [rc|] eqn:Ec; [|discriminate].
  inversion H. simpl.
  rewrite (index_select_length _ _ Eb), (index_select_length _ _ Es),
    (index_select_length _ _ Ec).
  repeat split; try reflexivity.
  - rewrite length_firstn. lia.
  - exists b, s, c. split; [reflexivity|]. split.
    + now destruct (inference_levels_count _ _ _ E).
    + now apply index_select_In with (idxs := firstn max_detections_per_image
                                                 (batched_nms b s c nms_threshold)).
Qed.

Lemma Forall2_map_graph A B (f : A -> B) (P : A -> Prop) l :
  Forall P l -> Forall2 (fun b a => b = f a /\ P a) (map f l) l.
Proof.
  induction 1; simpl; constructor; auto.
Qed.

Lemma Forall2_firstn A B (R : A -> B -> Prop) k x y :
  Forall2 R x y -> Forall2 R (firstn k x) (firstn k y).
Proof.
  intros H; revert k; induction H; intros [|k]; simpl; constructor; auto.
Qed.

Lemma Forall2_map_r A B C (R : A -> C -> Prop) (g : B -> C) x y :
  Forall2 (fun a b => R a (g b)) x y -> Forall2 R x (map g y).
Proof.
  induction 1; simpl; constructor; auto.
Qed.

Lemma Forall2_keep A (R : Q -> A -> Prop) x y :
  Forall2 R x y ->
  Forall2 (fun p a => R p a /\ score_threshold < p)
          (masked_select (keep_idxs x) x) (masked_select (keep_idxs x) y).
Proof.
  unfold keep_idxs. induction 1 as [|p a x y Hpa _ IH]; simpl; [constructor|].
  destruct (Qle_bool p score_threshold) eqn:E; simpl; [exact IH|].
  constructor; [|exact IH]. split; [exact Hpa|].
  apply Qnot_le_lt. intros Hle. apply Qle_bool_iff in Hle. congruence.
Qed.

Lemma Forall2_index_select A B (R : A -> B -> Prop) x y idxs rx ry :
  Forall2 R x y -> index_select x idxs = Some rx -> index_select y idxs = Some ry ->
  Forall2 R rx ry.
Proof.
  intros H. revert rx ry; induction idxs as [|i idxs IH]; intros rx ry Hx Hy;
    simpl in Hx, Hy.
  - inversion Hx. inversion Hy. constructor.
  - destruct (nth_error x i) as [a|] eqn:Ea; [|discriminate].
    destruct (index_select x idxs) as [rx'|]; [|discriminate].
    destruct (nth_error y i) as [b|] eqn:Eb; [|discriminate].
    destruct (index_select y idxs) as [ry'|]; [|discriminate].
    inversion Hx. inversion Hy. constructor; [|now apply IH].
    clear - H Ea Eb. revert i Ea Eb.
    induction H as [|a' b' x y Hab _ IH]; intros [|i] Ea Eb; simpl in Ea, Eb;
      try discriminate.
    + inversion Ea. inversion Eb. now subst.
    + now apply IH with i.
Qed.

Section Soundness.

Hypothesis sort_descending_spec : forall l, argsort_of descending 0 l (sort_descending l).
Hypothesis softmax_length : forall row, length (softmax row) = length row.

Lemma level_scores_nth box_cls_i i :
  (0 < num_classes)%nat ->
  Forall (fun row => length row = S num_classes) box_cls_i ->
  (i < length box_cls_i * num_classes)%nat ->
  nth i (level_scores box_cls_i) 0
  = nth (i mod num_classes) (softmax (nth (i / num_classes) box_cls_i [])) 0.
Proof using softmax_length.
  intros HK Hrows Hi. unfold level_scores.
  assert (Hshape : Forall (fun r => length r = num_classes)
                     (map (fun row => removelast (softmax row)) box_cls_i)).
  { clear - Hrows softmax_length. induction Hrows as [|row rows Hr _ IH];
      simpl; constructor; auto.
    now rewrite removelast_length, softmax_length, Hr. }
  rewrite (nth_flatten _ Hshape) by now rewrite length_map.
  assert (Hq : (i / num_classes < length box_cls_i)%nat)
    by (apply Nat.Div0.div_lt_upper_bound; lia).
  rewrite (@nth_map_lt _ _ _ _ (i / num_classes)%nat []) by exact Hq.
  apply removelast_nth. rewrite softmax_length.
  rewrite Forall_forall in Hrows.
  rewrite (Hrows (nth (i / num_classes) box_cls_i [])) by (apply nth_In; exact Hq).
  simpl. apply Nat.mod_upper_bound. lia.
Qed.

Lemma inference_level_sound box_cls_i box_reg_i anchors_i b s c :
  (0 < num_classes)%nat ->
  Forall (fun row => length row = S num_classes) box_cls_i ->
  inference_level box_cls_i box_reg_i anchors_i = Some (b, s, c) ->
  Forall2 (class_score box_cls_i) s c.
Proof using sort_descending_spec softmax_length.
  intros HK Hrows H. unfold inference_level, level_topk in H.
  destruct (index_select box_reg_i _); [|discriminate].
  destruct (index_select anchors_i _); [|discriminate].
  inversion H. clear H. apply Forall2_map_r.
  set (flat := level_scores box_cls_i).
  assert (Hidx : Forall (fun i => (i < length flat)%nat) (sort_descending flat)).
  { apply Forall_forall. intros i Hi.
    destruct (sort_descending_spec flat) as [Hp _].
    assert (In i (seq 0 (length flat))) as Hin by (eapply Permutation_in; eauto).
    apply in_seq in Hin. lia. }
  pose proof (Forall2_keep
                (Forall2_firstn (num_topk box_reg_i)
                   (Forall2_map_graph (fun i => nth i flat 0) Hidx))) as HF.
  eapply Forall2_impl; [|exact HF].
  intros p i [[Hp Hi] Hthr]. simpl in Hp, Hi.
  unfold flat in Hi. rewrite (level_scores_length softmax_length Hrows) in Hi.
  exists (i / num_classes)%nat. split; [apply Nat.Div0.div_lt_upper_bound; lia|].
  split; [apply Nat.mod_upper_bound; lia|]. split; [|exact Hthr].
  rewrite Hp. unfold flat. now apply level_scores_nth.
Qed.

Lemma inference_levels_sound box_cls box_delta anchors b s c :
  (0 < num_classes)%nat ->
  level_shapes box_cls box_delta anchors ->
  inference_levels box_cls box_delta anchors = Some (b, s, c) ->
  Forall2 (fun score class =>
             exists l, (l < length box_cls)%nat
                       /\ class_score (nth l box_cls []) score class) s c.
Proof using sort_descending_spec softmax_length.
  intros HK. revert box_delta anchors b s c.
  induction box_cls as [|box_cls_i box_cls IH]; intros [|box_reg_i box_delta]
    [|anchors_i anchors] b s c Hs H; simpl in H, Hs; try (inversion H; constructor).
  destruct Hs as [[Hrows _] Hrest].
  destruct (inference_level box_cls_i box_reg_i anchors_i) as [[[b1 s1] c1]|] eqn:E1;
    [|discriminate].
  destruct (inference_levels box_cls box_delta anchors) as [[[b2 s2] c2]|] eqn:E2;
    [|discriminate].
  inversion H. subst b s c. clear H. apply Forall2_app.
  - eapply Forall2_impl; [|exact (inference_level_sound _ _ HK Hrows E1)].
    intros score class Hc. exists 0%nat. split; [simpl; lia | exact Hc].
  - eapply Forall2_impl; [|exact (IH _ _ _ _ _ Hrest E2)].
    intros score class [l [Hl Hc]]. exists (S l). split; [simpl; lia | exact Hc].
Qed.

(** X10.  Every detection carries a score and a class that belong together:
    the score is the softmax probability of the returned class, one of the
    K object classes, at an anchor of one of the feature levels, and it is
    above the score threshold. *)
Theorem X10_detection_sound (box_cls box_delta anchors : list (list (list Q)))
    (result : detections) :
  (0 < num_classes)%nat ->
  level_shapes box_cls box_delta anchors ->
  inference_single_image box_cls box_delta anchors = Some result ->
  Forall2 (fun score class =>
             exists l a,
               (l < length box_cls)%nat /\ (a < length (nth l box_cls []))%nat
               /\ (class < num_classes)%nat
               /\ score = nth class (softmax (nth a (nth l box_cls []) [])) 0
               /\ score_threshold < score)
          (scores result) (pred_classes result).
Proof using sort_descending_spec softmax_length.
  intros HK Hs H. unfold inference_single_image in H.
  destruct (inference_levels box_cls box_delta anchors) as [[[b s] c]|] eqn:E;
    [|discriminate].
  destruct (index_select b _) as [rb|]; [|discriminate].
  destruct (index_select s _) as [rs|] eqn:Es; [|discriminate].
  destruct (index_select c _) as [rc|] eqn:Ec; [|discriminate].
  inversion H. simpl.
  pose proof (Forall2_index_select _ (inference_levels_sound _ _ _ HK Hs E) Es Ec) as HF.
  eapply Forall2_impl; [|exact HF].
  intros score class [l [Hl [a [Ha [Hc [Hscore Hthr]]]]]].
  exists l, a. auto.
Qed.

End Soundness.

(** ** The layout of [permute_to_N_HWA_K] *)

Lemma nth_flatten_mul A (rows : list (list A)) k q r d :
  Forall (fun row => length row = k) rows -> (q < length rows)%nat -> (r < k)%nat ->
  nth (q * k + r) (flatten rows) d = nth r (nth q rows []) d.
Proof.
  intros H Hq Hr. rewrite (nth_flatten _ H) by nia.
  rewrite Nat.div_add_l, Nat.div_small, Nat.add_0_r by lia.
  rewrite Nat.add_comm, Nat.Div0.mod_add, Nat.mod_small by lia. reflexivity.
Qed.

Lemma rows_of_nth A n m (x : list A) a k d :
  length x = (n * m)%nat -> (a < n)%nat -> (k < m)%nat ->
  nth k (nth a (rows_of n m x) []) d = nth (a * m + k) x d.
Proof.
  intros Hx Ha Hk. destruct (rows_of_shape n m x Hx) as [H1 H2].
  rewrite <- (flatten_rows_of n m x Hx) at 2.
  now rewrite (nth_flatten_mul _ H2) by lia.
Qed.

Lemma permute_HWAK_shape H W (A K : nat) (t : list (list (list (list Q)))) :
  length t = A -> Forall (fun blk => length blk = K) t ->
  length (permute_HWAK H W t) = H
  /\ Forall (fun hrow => length hrow = W) (permute_HWAK H W t)
  /\ Forall (fun cell => length cell = A) (flatten (permute_HWAK H W t))
  /\ Forall (fun row => length row = K) (flatten (flatten (permute_HWAK H W t))).
Proof.
  intros HA HK. unfold permute_HWAK. split; [now rewrite length_map, length_seq|].
  split; [|split].
  - apply Forall_forall. intros hrow Hin. apply in_map_iff in Hin.
    destruct Hin as [h [<- _]]. now rewrite length_map, length_seq.
  - apply Forall_forall. intros cell Hin. unfold flatten in Hin.
    apply in_concat in Hin. destruct Hin as [hrow [Hh Hc]].
    apply in_map_iff in Hh. destruct Hh as [h [<- _]].
    apply in_map_iff in Hc. destruct Hc as [w [<- _]]. now rewrite length_map.
  - apply Forall_forall. intros row Hin. unfold flatten in Hin.
    apply in_concat in Hin. destruct Hin as [cell [Hc Hr]].
    apply in_concat in Hc. destruct Hc as [hrow [Hh Hc]].
    apply in_map_iff in Hh. destruct Hh as [h [<- _]].
    apply in_map_iff in Hc. destruct Hc as [w [<- _]].
    apply in_map_iff in Hr. destruct Hr as [blk [<- Hb]].
    rewrite length_map. rewrite Forall_forall in HK. now apply HK.
Qed.

Lemma permute_HWAK_nth H W (A K : nat) (t : list (list (list (list Q)))) h w a k :
  length t = A -> Forall (fun blk => length blk = K) t ->
  (h < H)%nat -> (w < W)%nat -> (a < A)%nat -> (k < K)%nat ->
  nth k (nth ((h * W + w) * A + a) (flatten (flatten (permute_HWAK H W t))) []) 0
  = nth w (nth h (nth k (nth a t []) []) []) 0.
Proof.
  intros HA HK Hh Hw Ha Hk.
  destruct (permute_HWAK_shape H W HA HK) as [S1 [S2 [S3 _]]].
  assert (Hlen : length (flatten (permute_HWAK H W t)) = (H * W)%nat)
    by now rewrite (flatten_length S2), S1.
  rewrite (nth_flatten_mul _ S3) by nia.
  rewrite (nth_flatten_mul _ S2) by lia.
  unfold permute_HWAK.
  rewrite (@nth_map_lt _ _ _ _ h 0%nat) by now rewrite length_seq.
  rewrite (@nth_map_lt _ _ _ _ w 0%nat) by now rewrite length_seq.
  rewrite !seq_nth by lia. simpl.
  rewrite (@nth_map_lt _ _ _ _ a []) by lia.
  rewrite (@nth_map_lt _ _ _ _ k []); [reflexivity|].
  rewrite Forall_forall in HK. rewrite (HK (nth a t [])); [exact Hk|].
  apply nth_In. lia.
Qed.

(** X11.  [permute_to_N_HWA_K] turns a tensor of shape (N, A x K, H, W) into
    N images of H x W x A rows of K entries, and the entry [k] of row
    [(h W + w) A + a] of an image is its entry at channel [a K + k] and
    position (h, w). *)
Theorem X11_permute_layout (tensor : tensor4) (A K : nat) :
  tensor4_shape tensor -> dim_C tensor = (A * K)%nat -> (0 < K)%nat ->
  let out := permute_to_N_HWA_K tensor K in
  length out = dim_N tensor
  /\ Forall (fun image =>
               length image = (dim_H tensor * dim_W tensor * A)%nat
               /\ Forall (fun row => length row = K) image) out
  /\ forall n h w a k,
       (n < dim_N tensor)%nat -> (h < dim_H tensor)%nat -> (w < dim_W tensor)%nat ->
       (a < A)%nat -> (k < K)%nat ->
       nth k (nth ((h * dim_W tensor + w) * A + a) (nth n out []) []) 0
       = nth w (nth h (nth (a * K + k) (nth n (entries tensor) []) []) []) 0.
Proof.
  intros [HN Himg] HC HK out. unfold out, permute_to_N_HWA_K.
  rewrite HC, Nat.div_mul by lia.
  assert (Hview : forall image, In image (entries tensor) ->
            length (rows_of A K image) = A
            /\ Forall (fun blk => length blk = K) (rows_of A K image)).
  { intros image Hin. rewrite Forall_forall in Himg.
    destruct (Himg image Hin) as [Hc _]. apply rows_of_shape. lia. }
  split; [now rewrite length_map|]. split.
  - apply Forall_forall. intros image' Hin. apply in_map_iff in Hin.
    destruct Hin as [image [<- Hin]]. destruct (Hview image Hin) as [V1 V2].
    destruct (permute_HWAK_shape (dim_H tensor) (dim_W tensor) V1 V2)
      as [S1 [S2 [S3 S4]]].
    split; [|exact S4].
    now rewrite (flatten_length S3), (flatten_length S2), S1.
  - intros n h w a k Hn Hh Hw Ha Hk.
    rewrite (@nth_map_lt _ _ _ _ n []) by lia.
    assert (Hin : In (nth n (entries tensor) []) (entries tensor))
      by (apply nth_In; lia).
    destruct (Hview _ Hin) as [V1 V2].
    rewrite (@permute_HWAK_nth (dim_H tensor) (dim_W tensor) A K _ h w a k
               V1 V2 Hh Hw Ha Hk).
    rewrite Forall_forall in Himg. destruct (Himg _ Hin) as [Hc Hplanes].
    rewrite (@rows_of_nth _ A K _ a k []) by lia. reflexivity.
Qed.

Lemma permute_image_length (x : tensor4) (K n : nat) :
  tensor4_shape x -> dim_C x = (dim_C x / K * K)%nat -> (0 < K)%nat ->
  (n < dim_N x)%nat ->
  length (nth n (permute_to_N_HWA_K x K) []) = level_anchors K x.
Proof.
  intros [HN Himg] HC HK Hn. unfold permute_to_N_HWA_K, level_anchors.
  rewrite (@nth_map_lt _ _ _ _ n []) by lia.
  assert (Hin : In (nth n (entries x) []) (entries x)) by (apply nth_In; lia).
  rewrite Forall_forall in Himg. destruct (Himg _ Hin) as [Hc _].
  destruct (@rows_of_shape _ (dim_C x / K) K (nth n (entries x) [])) as [V1 V2];
    [lia|].
  destruct (permute_HWAK_shape (dim_H x) (dim_W x) V1 V2) as [S1 [S2 [S3 _]]].
  now rewrite (flatten_length S3), (flatten_length S2), S1.
Qed.

Lemma cat_dim1_rows (levels : list tensor4) (K N n : nat) :
  Forall (fun x => tensor4_shape x /\ dim_N x = N
                   /\ dim_C x = (dim_C x / K * K)%nat) levels ->
  (0 < K)%nat -> (n < N)%nat ->
  length (flatten (map (fun t => nth n t [])
                       (map (fun x => permute_to_N_HWA_K x K) levels)))
  = list_sum (map (level_anchors K) levels).
Proof.
  intros H HK Hn. induction H as [|x levels [Hs [HN HC]] _ IH]; [reflexivity|].
  simpl. unfold flatten in IH |- *. simpl. rewrite length_app, IH.
  now rewrite permute_image_length by (auto; lia).
Qed.

(** X12.  [permute_all_cls_and_box_to_N_HWA_K_and_concat] lists the rows
    image by image: with R the number of anchors of all levels, the result
    has N R rows and the rows [n R, (n + 1) R) are the rows of image [n] on
    the levels, in the order of the levels. *)
Theorem X12_concat_image_major (box_cls box_delta : list tensor4) (classes N : nat) :
  box_cls <> [] -> box_delta <> [] -> (0 < classes)%nat ->
  Forall (fun x => tensor4_shape x /\ dim_N x = N
                   /\ dim_C x = (dim_C x / classes * classes)%nat) box_cls ->
  Forall (fun x => tensor4_shape x /\ dim_N x = N
                   /\ dim_C x = (dim_C x / 4 * 4)%nat) box_delta ->
  let out := permute_all_cls_and_box_to_N_HWA_K_and_concat box_cls box_delta classes in
  length (fst out) = (N * list_sum (map (level_anchors classes) box_cls))%nat
  /\ length (snd out) = (N * list_sum (map (level_anchors 4) box_delta))%nat
  /\ forall n, (n < N)%nat ->
       nth n (view_rows N (fst out)) []
       = flatten (map (fun x => nth n (permute_to_N_HWA_K x classes) []) box_cls)
       /\ nth n (view_rows N (snd out)) []
          = flatten (map (fun x => nth n (permute_to_N_HWA_K x 4) []) box_delta).
Proof.
  intros Hc Hd HK Hcls Hdel out.
  assert (Hcat : forall (levels : list tensor4) (K : nat),
            levels <> [] -> (0 < K)%nat ->
            Forall (fun x => tensor4_shape x /\ dim_N x = N
                             /\ dim_C x = (dim_C x / K * K)%nat) levels ->
            cat_dim1 (map (fun x => permute_to_N_HWA_K x K) levels)
            = map (fun n => flatten (map (fun x => nth n (permute_to_N_HWA_K x K) [])
                                         levels)) (seq 0 N)
            /\ Forall (fun r => length r = list_sum (map (level_anchors K) levels))
                      (cat_dim1 (map (fun x => permute_to_N_HWA_K x K) levels))).
  { intros levels K Hne HK' Hl. destruct levels as [|x levels]; [congruence|].
    assert (Hx : length (permute_to_N_HWA_K x K) = N).
    { inversion Hl as [|? ? [[Hn _] [HN _]] _]. subst.
      unfold permute_to_N_HWA_K. now rewrite length_map. }
    assert (E : cat_dim1 (map (fun x => permute_to_N_HWA_K x K) (x :: levels))
                = map (fun n => flatten (map (fun x => nth n (permute_to_N_HWA_K x K) [])
                                             (x :: levels))) (seq 0 N)).
    { unfold cat_dim1. cbn [map]. rewrite Hx. apply map_ext. intros n.
      now rewrite map_map. }
    split; [exact E|]. rewrite E. apply Forall_forall. intros r Hin.
    apply in_map_iff in Hin. destruct Hin as [n [<- Hn]]. apply in_seq in Hn.
    rewrite <- (cat_dim1_rows Hl HK' (n := n)) by lia. now rewrite map_map. }
  destruct (Hcat box_cls classes Hc HK Hcls) as [E1 F1].
  destruct (Hcat box_delta 4%nat Hd ltac:(lia) Hdel) as [E2 F2].
  assert (L1 : length (cat_dim1 (map (fun x => permute_to_N_HWA_K x classes) box_cls)) = N)
    by now rewrite E1, length_map, length_seq.
  assert (L2 : length (cat_dim1 (map (fun x => permute_to_N_HWA_K x 4) box_delta)) = N)
    by now rewrite E2, length_map, length_seq.
  unfold out, permute_all_cls_and_box_to_N_HWA_K_and_concat. simpl.
  split; [now rewrite (flatten_length F1), L1|].
  split; [now rewrite (flatten_length F2), L2|].
  intros n Hn.
  rewrite (view_rows_flatten_at F1 L1), (view_rows_flatten_at F2 L2).
  rewrite E1, E2.
  rewrite !(@nth_map_lt _ _ _ _ n 0%nat) by now rewrite length_seq.
  now rewrite seq_nth by lia.
Qed.

(** ** The loop over the images *)

Lemma index_select_all_map A (xs : list (list A)) i r d :
  index_select_all xs i = Some r -> r = map (fun x => nth i x d) xs.
Proof.
  revert r; induction xs as [|x xs IH]; intros r H; simpl in H.
  - now inversion H.
  - destruct (nth_error x i) as [a|] eqn:E; [|discriminate].
    destruct (index_select_all xs i) as [r'|]; [|discriminate].
    inversion H. simpl. rewrite <- (IH r' eq_refl).
    now rewrite (nth_error_nth _ _ d E).
Qed.

Lemma inference_images_rows box_cls box_delta anchors img_idx results :
  inference_images box_cls box_delta anchors img_idx = Some results ->
  length results = length anchors
  /\ forall i, (i < length anchors)%nat ->
       inference_single_image (map (fun lvl => nth (img_idx + i) lvl []) box_cls)
                              (map (fun lvl => nth (img_idx + i) lvl []) box_delta)
                              (nth i anchors [])
       = Some (nth i results {| pred_boxes := []; scores := []; pred_classes := [] |}).
Proof.
  revert img_idx results; induction anchors as [|a anchors IH]; intros k results H;
    simpl in H.
  - inversion H. split; [reflexivity | intros i Hi; simpl in Hi; lia].
  - destruct (index_select_all box_cls k) as [c|] eqn:Ec; [|discriminate].
    destruct (index_select_all box_delta k) as [r|] eqn:Er; [|discriminate].
    destruct (inference_single_image c r a) as [res|] eqn:E; [|discriminate].
    destruct (inference_images box_cls box_delta anchors (S k)) as [rest|] eqn:E';
      [|discriminate].
    inversion H. destruct (IH _ _ E') as [Hl Hi]. simpl. split; [now rewrite Hl|].
    intros [|i] Hlt.
    + rewrite Nat.add_0_r.
      now rewrite <- (index_select_all_map _ _ [] Ec), <- (index_select_all_map _ _ [] Er).
    + replace (k + S i)%nat with (S k + i)%nat by lia. apply Hi. simpl in Hlt. lia.
Qed.

(** X13.  [SSD.inference] fails when the number of anchor lists differs from
    the number of images; when it returns, it returns one result per image,
    and the result of image [i] is [inference_single_image] on the entries
    [i] of the permuted head outputs of every level. *)
Theorem X13_inference_per_image (box_cls box_delta : list tensor4)
    (anchors : list (list (list (list Q)))) (images : nat) :
  (length anchors <> images -> inference box_cls box_delta anchors images = None)
  /\ forall results,
       inference box_cls box_delta anchors images = Some results ->
       length anchors = images /\ length results = images
       /\ forall i, (i < images)%nat ->
            inference_single_image
              (map (fun x => nth i (permute_to_N_HWA_K x (num_classes + 1)) []) box_cls)
              (map (fun x => nth i (permute_to_N_HWA_K x 4) []) box_delta)
              (nth i anchors [])
            = Some (nth i results {| pred_boxes := []; scores := []; pred_classes := [] |}).
Proof.
  unfold inference. split.
  - intros Hne. apply Nat.eqb_neq in Hne. now rewrite Hne.
  - intros results H. destruct (Nat.eqb_spec (length anchors) images) as [Hl|];
      [|discriminate].
    destruct (inference_images_rows _ _ _ _ H) as [Hr Hi].
    split; [exact Hl|]. split; [now rewrite Hr|].
    intros i Hlt. specialize (Hi i ltac:(lia)). simpl in Hi.
    now rewrite !map_map in Hi.
Qed.

(** ** Top-k and the score threshold *)

Lemma keep_none (l : list Q) :
  Forall (fun x => x <= score_threshold) l -> masked_select (keep_idxs l) l = [].
Proof.
  unfold keep_idxs. induction 1 as [|a l Ha _ IH]; [reflexivity|].
  simpl. apply Qle_bool_iff in Ha. now rewrite Ha.
Qed.

Lemma keep_firstn (l : list Q) k :
  StronglySorted descending l ->
  masked_select (keep_idxs (firstn k l)) (firstn k l)
  = firstn k (masked_select (keep_idxs l) l).
Proof.
  intros H; revert k; induction H as [|a l Hs IH Ha]; intros [|k]; try reflexivity.
  unfold keep_idxs in IH |- *. simpl.
  destruct (Qle_bool a score_threshold) eqn:E; simpl; [|now rewrite IH].
  apply Qle_bool_iff in E.
  assert (Hall : Forall (fun x => x <= score_threshold) l).
  { rewrite Forall_forall in Ha |- *. intros x Hx. unfold descending in Ha.
    apply Qle_trans with a; auto. }
  fold (keep_idxs (firstn k l)). fold (keep_idxs l).
  rewrite (keep_none Hall). rewrite keep_none; [now destruct k|].
  apply Forall_forall. intros x Hx. apply firstn_In in Hx.
  rewrite Forall_forall in Hall. auto.
Qed.

Lemma masked_select_sorted (R : Q -> Q -> Prop) (mask : list bool) (l : list Q) :
  StronglySorted R l -> StronglySorted R (masked_select mask l).
Proof.
  intros H; revert mask; induction H as [|a l Hs IH Ha]; intros [|b mask]; simpl;
    try constructor.
  destruct b; [|apply IH]. constructor; [apply IH|].
  apply Forall_forall. intros x Hx. apply masked_select_In in Hx.
  rewrite Forall_forall in Ha. auto.
Qed.

Section Threshold.

Hypothesis sort_descending_spec : forall l, argsort_of descending 0 l (sort_descending l).

(** X15.  The candidates of a level come out in descending order of score,
    and keeping the top [num_topk] scores before thresholding gives the
    scores that thresholding before keeping the top [num_topk] gives. *)
Theorem X15_topk_threshold_commute (box_cls_i box_reg_i anchors_i : list (list Q))
    boxes scores_i classes :
  inference_level box_cls_i box_reg_i anchors_i = Some (boxes, scores_i, classes) ->
  let sorted := sorted_scores box_cls_i in
  scores_i = firstn (num_topk box_reg_i) (masked_select (keep_idxs sorted) sorted)
  /\ StronglySorted descending scores_i.
Proof using sort_descending_spec.
  intros H sorted. unfold inference_level, level_topk in H.
  destruct (index_select box_reg_i _) as [rb|]; [|discriminate].
  destruct (index_select anchors_i _) as [ra|]; [|discriminate].
  inversion H. clear H. fold (sorted_scores box_cls_i). fold sorted.
  assert (Hs : StronglySorted descending sorted).
  { apply Sorted_StronglySorted.
    - intros x y z Hxy Hyz. unfold descending in Hxy, Hyz |- *.
      now apply Qle_trans with y.
    - unfold sorted, sorted_scores.
      now destruct (sort_descending_spec (level_scores box_cls_i)). }
  split; [now apply keep_firstn|].
  rewrite (keep_firstn _ Hs). 
  assert (Hk : StronglySorted descending (masked_select (keep_idxs sorted) sorted))
    by now apply masked_select_sorted.
  revert Hk. generalize (masked_select (keep_idxs sorted) sorted) as kept.
  generalize (num_topk box_reg_i) as k. clear.
  intros k l Hl; revert k; induction Hl as [|a l Hs IH Ha]; intros [|k]; simpl;
    try constructor.
  - apply IH.
  - apply Forall_forall. intros x Hx. apply firstn_In in Hx.
    rewrite Forall_forall in Ha. auto.
Qed.

End Threshold.

End SSD.


(** ** The ratio of hard negatives *)

Lemma mask_le_nth x y i :
  mask_le x y -> nth i x false = true -> nth i y false = true.
Proof.
  intros H; revert i; induction H as [|a b x y Hab _ IH]; intros [|i]; simpl; auto.
Qed.

Lemma mask_le_count x y : mask_le x y -> (count_true x <= count_true y)%nat.
Proof.
  induction 1 as [|a b x y Hab _ IH]; [reflexivity|].
  rewrite !count_true_cons. destruct a, b; simpl; try lia;
    specialize (Hab eq_refl); discriminate.
Qed.

Lemma mask_le_app x y x' y' : mask_le x y -> mask_le x' y' -> mask_le (x ++ x') (y ++ y').
Proof.
  intros H H'. now apply Forall2_app.
Qed.

Lemma mask_le_andb x y z : mask_le x y -> mask_le (map2 andb x z) (map2 andb y z).
Proof.
  intros H; revert z; induction H as [|a b x y Hab _ IH]; intros [|c z]; simpl;
    try (constructor; fail).
  constructor; [|apply IH].
  destruct a; simpl; [rewrite Hab by reflexivity; auto | discriminate].
Qed.

Lemma mask_le_firstn k x y : mask_le x y -> mask_le (firstn k x) (firstn k y).
Proof.
  intros H; revert k; induction H as [|a b x y Hab _ IH]; intros [|k]; simpl;
    constructor; auto; apply IH.
Qed.

Lemma mask_le_skipn k x y : mask_le x y -> mask_le (skipn k x) (skipn k y).
Proof.
  intros H; revert k; induction H as [|a b x y Hab H IH]; intros [|k]; simpl;
    try (constructor; auto; fail); apply IH.
Qed.

Lemma mask_le_rows n m x y :
  mask_le x y ->
  Forall2 (fun a b => count_true a <= count_true b)%nat (rows_of n m x) (rows_of n m y).
Proof.
  revert x y; induction n as [|n IH]; intros x y H; simpl; constructor.
  - now apply mask_le_count, mask_le_firstn.
  - now apply IH, mask_le_skipn.
Qed.

Lemma hard_negative_row_mono (r1 r2 : Z) rank nfg :
  (r1 <= r2)%Z -> mask_le (hard_negative_row r1 rank nfg) (hard_negative_row r2 rank nfg).
Proof.
  intros H. unfold hard_negative_row.
  induction rank as [|r rank IH]; simpl; constructor; auto.
  intros E. apply Z.ltb_lt in E. apply Z.ltb_lt.
  assert (r1 * Z.of_nat nfg <= r2 * Z.of_nat nfg)%Z
    by (apply Z.mul_le_mono_nonneg_r; lia).
  lia.
Qed.

(** C9.  With the batch and its foreground counts fixed, raising
    [neg_pos_ratio] keeps every selected hard negative selected, so the
    number of hard negatives does not decrease, in the batch and in every
    image. *)
Theorem C9_ratio_monotone (num_classes : nat) (ratio1 ratio2 : Z)
    (cross_entropy : list Q -> Z -> Q)
    (argsort_float : list Q -> list nat) (argsort_long : list nat -> list nat)
    (batch_size : nat) (pred_class_logits : list (list Q)) (gt_classes : list (list Z)) :
  (ratio1 <= ratio2)%Z ->
  let hn1 := hard_negative num_classes ratio1 cross_entropy argsort_float argsort_long
                           batch_size pred_class_logits (flatten gt_classes) in
  let hn2 := hard_negative num_classes ratio2 cross_entropy argsort_float argsort_long
                           batch_size pred_class_logits (flatten gt_classes) in
  (forall i, nth i hn1 false = true -> nth i hn2 false = true)
  /\ (count_true hn1 <= count_true hn2)%nat
  /\ Forall2 (fun a b => count_true a <= count_true b)%nat
             (view_rows batch_size hn1) (view_rows batch_size hn2).
Proof.
  intros H hn1 hn2.
  assert (Hle : mask_le hn1 hn2).
  { unfold hn1, hn2, hard_negative. apply mask_le_andb.
    generalize (map (rank_row argsort_float argsort_long)
                    (view_rows batch_size
                       (loss_for_neg_indices num_classes cross_entropy pred_class_logits
                          (flatten gt_classes)))) as ranks.
    generalize (map count_true
                    (view_rows batch_size
                       (foreground_idxs num_classes (flatten gt_classes)))) as nfgs.
    intros nfgs ranks. revert nfgs.
    induction ranks as [|rank ranks IH]; intros [|nfg nfgs]; simpl; try constructor.
    unfold flatten in IH |- *. simpl. apply mask_le_app; auto.
    now apply hard_negative_row_mono. }
  split; [|split].
  - intros i. now apply mask_le_nth.
  - now apply mask_le_count.
  - unfold view_rows.
    assert (Hlen : length hn1 = length hn2) by (eapply Forall2_length; exact Hle).
    rewrite Hlen. now apply mask_le_rows.
Qed.


(** ** The loss and the ratio *)

Lemma mask_le_orb x y z : mask_le x y -> mask_le (map2 orb x z) (map2 orb y z).
Proof.
  intros H; revert z; induction H as [|a b x y Hab _ IH]; intros [|c z]; simpl;
    try (constructor; fail).
  constructor; [|apply IH].
  destruct a; simpl; [rewrite Hab by reflexivity; auto | intros ->; apply orb_true_r].
Qed.

Lemma Qsum_nonneg (v : list Q) : Forall (fun x => 0 <= x) v -> 0 <= Qsum v.
Proof.
  induction 1 as [|a v Ha _ IH]; simpl; [apply Qle_refl|].
  rewrite <- (Qplus_0_r 0). now apply Qplus_le_compat.
Qed.

Lemma Qsum_mask_le (x y : list bool) (v : list Q) :
  mask_le x y -> Forall (fun a => 0 <= a) v ->
  Qsum (masked_select x v) <= Qsum (masked_select y v).
Proof.
  intros H; revert v; induction H as [|a b x y Hab _ IH]; intros [|c v] Hv; simpl;
    try apply Qle_refl.
  inversion Hv as [|? ? Hc Hv']; subst. specialize (IH v Hv').
  destruct a, b; simpl.
  - now apply Qplus_le_compat; [apply Qle_refl|].
  - specialize (Hab eq_refl). discriminate.
  - rewrite <- (Qplus_0_l (Qsum (masked_select x v))). now apply Qplus_le_compat.
  - exact IH.
Qed.

Lemma hard_negative_mono (num_classes : nat) (ratio1 ratio2 : Z)
    (cross_entropy : list Q -> Z -> Q)
    (argsort_float : list Q -> list nat) (argsort_long : list nat -> list nat)
    (n : nat) (pred : list (list Q)) (g : list Z) :
  (ratio1 <= ratio2)%Z ->
  mask_le (hard_negative num_classes ratio1 cross_entropy argsort_float argsort_long n pred g)
          (hard_negative num_classes ratio2 cross_entropy argsort_float argsort_long n pred g).
Proof.
  intros H. unfold hard_negative. apply mask_le_andb.
  generalize (map (rank_row argsort_float argsort_long)
                  (view_rows n (loss_for_neg_indices num_classes cross_entropy pred g)))
    as ranks.
  generalize (map count_true (view_rows n (foreground_idxs num_classes g))) as nfgs.
  intros nfgs ranks. revert nfgs.
  induction ranks as [|rank ranks IH]; intros [|nfg nfgs]; simpl; try constructor.
  unfold flatten in IH |- *. simpl. apply mask_le_app; auto.
  now apply hard_negative_row_mono.
Qed.

(** X14.  With a cross-entropy that is never negative, raising
    [neg_pos_ratio] does not lower the Multibox classification loss of a
    batch. *)
Theorem X14_loss_monotone (num_classes : nat) (ratio1 ratio2 : Z)
    (focal_loss_alpha focal_loss_gamma smooth_l1_loss_beta : Q)
    (cross_entropy : list Q -> Z -> Q)
    (sigmoid_focal_loss : Q -> Q -> Q -> Q -> Q) (smooth_l1 : Q -> Q -> Q -> Q)
    (argsort_float : list Q -> list nat) (argsort_long : list nat -> list nat)
    (n m : nat) (gt_classes : list (list Z)) (gt_anchors_deltas : list (list (list Q)))
    (pred_class_logits pred_anchor_deltas : list (list Q)) :
  (forall l, length (argsort_float l) = length l) ->
  (forall l, length (argsort_long l) = length l) ->
  (forall row c, 0 <= cross_entropy row c) ->
  (ratio1 <= ratio2)%Z ->
  Forall (fun r => length r = m) gt_classes -> length gt_classes = n ->
  length pred_class_logits = (n * m)%nat ->
  loss_cls (losses num_classes Multibox focal_loss_alpha focal_loss_gamma ratio1
                   smooth_l1_loss_beta cross_entropy sigmoid_focal_loss smooth_l1
                   argsort_float argsort_long n gt_classes gt_anchors_deltas
                   pred_class_logits pred_anchor_deltas)
  <= loss_cls (losses num_classes Multibox focal_loss_alpha focal_loss_gamma ratio2
                      smooth_l1_loss_beta cross_entropy sigmoid_focal_loss smooth_l1
                      argsort_float argsort_long n gt_classes gt_anchors_deltas
                      pred_class_logits pred_anchor_deltas).
Proof.
  intros Haf Hal Hce Hle Hr Hn Hp. unfold losses. simpl. unfold multibox_loss_cls.
  set (g := flatten gt_classes).
  assert (Hsum : forall ratio,
            Qsum (masked_select (valid_idxs g)
                    (mined_loss num_classes ratio cross_entropy argsort_float
                                argsort_long n pred_class_logits g))
            == Qsum (masked_select
                       (selected num_classes ratio cross_entropy argsort_float
                                 argsort_long n pred_class_logits g)
                       (per_anchor_ce cross_entropy pred_class_logits g))).
  { intros ratio. unfold g.
    rewrite (mined_loss_eq num_classes ratio cross_entropy argsort_float argsort_long
               Haf Hal pred_class_logits Hr Hn Hp).
    apply Qsum_select_zeroed.
    - intros i. apply selected_valid.
    - unfold valid_idxs, selected. rewrite length_map, map2_length.
      + now rewrite (hard_negative_length num_classes ratio cross_entropy argsort_float
                       argsort_long Haf Hal pred_class_logits Hr Hn Hp).
      + rewrite (hard_negative_length num_classes ratio cross_entropy argsort_float
                   argsort_long Haf Hal pred_class_logits Hr Hn Hp).
        unfold foreground_idxs. now rewrite length_map. }
  rewrite !Hsum. unfold Qdiv. apply Qmult_le_compat_r.
  - apply Qsum_mask_le.
    + unfold selected. apply mask_le_orb. now apply hard_negative_mono.
    + unfold per_anchor_ce. generalize g. clear - Hce.
      induction pred_class_logits as [|row rows IH]; intros [|c g]; simpl;
        constructor; auto.
  - apply Qlt_le_weak, Qinv_lt_0_compat, max1_pos.
Qed.


(** ** A stable [argsort] and other instances of the library functions

    The theorems above hold for every [argsort] that sorts, every softmax
    that returns probabilities, and so on.  The instances below are used to
    evaluate the model on concrete batches. *)

Module Instances.

Section Insertion.

Variable A : Type.
Variable R : A -> A -> Prop.
Variable leb : A -> A -> bool.
Variable d : A.
Variable x : list A.

(** Insert index [i] before the first index whose entry is not smaller. *)
Fixpoint insert_by (i : nat) (l : list nat) : list nat :=
  match l with
  | [] => [i]
  | j :: l' => if leb (nth i x d) (nth j x d) then i :: l else j :: insert_by i l'
  end.

(** Insertion sort of the indices of [x], from the last to the first: equal
    entries keep their order. *)
Definition argsort_by : list nat := fold_right insert_by [] (seq 0 (length x)).

Hypothesis leb_sound : forall a b, leb a b = true -> R a b.
Hypothesis leb_total : forall a b, leb a b = false -> R b a.

Lemma insert_by_permutation i l : Permutation (insert_by i l) (i :: l).
Proof.
  induction l as [|j l IH]; simpl; [reflexivity|].
  destruct (leb (nth i x d) (nth j x d)); [reflexivity|].
  transitivity (j :: i :: l); [now constructor | apply perm_swap].
Qed.

Lemma insert_by_sorted i l :
  Sorted R (map (fun k => nth k x d) l) ->
  Sorted R (map (fun k => nth k x d) (insert_by i l)).
Proof.
  induction l as [|j l IH]; simpl; intros H; [repeat constructor|].
  destruct (leb (nth i x d) (nth j x d)) eqn:E; simpl.
  - constructor; [exact H | constructor; now apply leb_sound].
  - inversion H as [|? ? Hs Hh]; subst. constructor; [now apply IH|].
    destruct l as [|k l]; simpl.
    + constructor. now apply leb_total.
    + destruct (leb (nth i x d) (nth k x d)); simpl; constructor.
      * now apply leb_total.
      * now inversion Hh.
Qed.

Lemma argsort_by_spec : argsort_of R d x argsort_by.
Proof.
  unfold argsort_of, argsort_by. generalize (seq 0 (length x)) as l.
  induction l as [|i l [IHp IHs]]; simpl; split.
  - apply perm_nil.
  - apply Sorted_nil.
  - transitivity (i :: fold_right insert_by [] l);
      [apply insert_by_permutation | now apply perm_skip].
  - now apply insert_by_sorted.
Qed.

End Insertion.

Definition stable_argsort_float (l : list Q) : list nat := argsort_by Qle_bool 0 l.
Definition stable_argsort_long (l : list nat) : list nat := argsort_by Nat.leb 0%nat l.
Definition stable_sort_descending (l : list Q) : list nat :=
  argsort_by (fun a b => Qle_bool b a) 0 l.

Lemma Qle_bool_total a b : Qle_bool a b = false -> b <= a.
Proof.
  intros H. apply Qlt_le_weak, Qnot_le_lt. intros Hle.
  apply Qle_bool_iff in Hle. congruence.
Qed.

Lemma stable_argsort_float_spec l : argsort_of Qle 0 l (stable_argsort_float l).
Proof.
  apply argsort_by_spec.
  - intros a b. apply Qle_bool_iff.
  - apply Qle_bool_total.
Qed.

Lemma stable_argsort_long_spec l : argsort_of le 0%nat l (stable_argsort_long l).
Proof.
  apply argsort_by_spec.
  - intros a b. apply Nat.leb_le.
  - intros a b H. apply Nat.leb_gt in H. lia.
Qed.

Lemma stable_sort_descending_spec l : argsort_of descending 0 l (stable_sort_descending l).
Proof.
  apply argsort_by_spec; unfold descending.
  - intros a b. apply Qle_bool_iff.
  - intros a b. apply Qle_bool_total.
Qed.

Lemma stable_argsort_float_length l : length (stable_argsort_float l) = length l.
Proof.
  destruct (stable_argsort_float_spec l) as [H _].
  apply Permutation_length in H. now rewrite length_seq in H.
Qed.

Lemma stable_argsort_long_length l : length (stable_argsort_long l) = length l.
Proof.
  destruct (stable_argsort_long_spec l) as [H _].
  apply Permutation_length in H. now rewrite length_seq in H.
Qed.

(** [F.softmax] on a row of equal logits: every entry is 1 / len(row). *)
Definition softmax_equal_logits (row : list Q) : list Q :=
  map (fun _ => 1 # Pos.of_nat (length row)) row.

Lemma softmax_equal_logits_range row x :
  In x (softmax_equal_logits row) -> 0 <= x <= 1.
Proof.
  unfold softmax_equal_logits. intros H. apply in_map_iff in H.
  destruct H as [_ [<- _]]. unfold Qle. simpl. lia.
Qed.

Lemma softmax_equal_logits_length row :
  length (softmax_equal_logits row) = length row.
Proof.
  unfold softmax_equal_logits. apply length_map.
Qed.

(** A positive per-anchor loss in the place of [F.cross_entropy]: one plus
    the squared distance of the logits from the one-hot row of the target. *)
Definition squared_error (row : list Q) (c : Z) : Q :=
  1 + Qsum (map2 (fun x (j : nat) =>
                    let t := if (Z.of_nat j =? c)%Z then 1 else 0 in (x - t) * (x - t))
                 row (seq 0 (length row))).

(** Elementwise kernels in the place of [sigmoid_focal_loss_jit] and
    [smooth_l1_loss]: the squared and the absolute error. *)
Definition squared_kernel (alpha gamma x t : Q) : Q := (x - t) * (x - t).
Definition abs_kernel (beta x t : Q) : Q := if Qle_bool x t then t - x else x - t.

(** An IoU matrix of the right shape, a matcher that matches every anchor
    to instance 0 with label 0, the identity box transform and an NMS that
    keeps every candidate. *)
Definition zero_iou (boxes1 boxes2 : list (list Q)) : matrix :=
  {| ncols := length boxes2; data := map (fun _ => map (fun _ => 0) boxes2) boxes1 |}.
Definition background_matcher (mq : matrix) : list nat * list Z :=
  (repeat 0%nat (ncols mq), repeat 0%Z (ncols mq)).
Definition anchor_deltas (anchors matched : list (list Q)) : list (list Q) :=
  map (map (fun _ => 0)) anchors.
Definition keep_anchor (deltas anchors : list (list Q)) : list (list Q) := anchors.
Definition keep_all (boxes : list (list Q)) (scores : list Q) (idxs : list nat)
    (threshold : Q) : list nat :=
  seq 0 (length scores).

End Instances.


(** ** The model on concrete batches *)

Module Examples.

Import Instances.

(** Two images with three anchors each and K = 2 classes: the class targets
    (one ignored anchor), the logits, the regression targets and the
    predicted deltas. *)
Definition gt : list (list Z) := [[0; 2; 2]; [2; -1; 1]]%Z.
Definition logits : list (list Q) :=
  [[2; 0; 0]; [1; 0; 0]; [0; 0; 3]; [0; 1; 0]; [0; 0; 0]; [0; 2; 0]].
Definition gt_deltas : list (list (list Q)) :=
  [[[1; 1; 1; 1]; [0; 0; 0; 0]; [0; 0; 0; 0]];
   [[0; 0; 0; 0]; [0; 0; 0; 0]; [2; 2; 2; 2]]].
Definition deltas : list (list Q) :=
  [[0; 1; 2; 1]; [5; 5; 5; 5]; [5; 5; 5; 5]; [5; 5; 5; 5]; [5; 5; 5; 5]; [2; 2; 2; 0]].

(** [SSD.losses] with K = 2, alpha = 1/4, gamma = 2, beta = 1. *)
Definition ssd_losses (name : loss_name_t) (ratio : Z) (n : nat) gt_classes
    gt_anchors_deltas pred_class_logits pred_anchor_deltas : loss_dict :=
  losses 2 name (1 # 4) 2 ratio 1 squared_error squared_kernel abs_kernel
         stable_argsort_float stable_argsort_long n gt_classes gt_anchors_deltas
         pred_class_logits pred_anchor_deltas.

(** The mask of hard negatives with K = 2. *)
Definition ssd_hard_negative (ratio : Z) (n : nat) pred_class_logits gt_classes
    : list bool :=
  hard_negative 2 ratio squared_error stable_argsort_float stable_argsort_long n
                pred_class_logits gt_classes.

Example multibox_losses :
  loss_cls (ssd_losses Multibox 1 2 gt gt_deltas logits deltas) == 6
  /\ loss_box_reg (ssd_losses Multibox 1 2 gt gt_deltas logits deltas) == 2.
Proof. split; vm_compute; reflexivity. Qed.

Example hard_negatives :
  ssd_hard_negative 1 2 logits (flatten gt) = [false; false; true; true; false; false]
  /\ ssd_hard_negative 3 2 logits (flatten gt) = [false; true; true; true; false; false].
Proof. split; vm_compute; reflexivity. Qed.

Lemma gt_shape : Forall (fun r : list Z => length r = 3%nat) gt.
Proof. repeat constructor. Defined.

Lemma C1_witness :
  loss_cls (ssd_losses Multibox 1 2 gt gt_deltas logits deltas)
  == Qsum (masked_select
             (selected 2 1 squared_error stable_argsort_float stable_argsort_long 2 logits (flatten gt))
             (per_anchor_ce squared_error logits (flatten gt)))
     / max1 (count_true (foreground_idxs 2 (flatten gt))).
Proof.
  refine (proj1 (@C1_multibox_loss_cls 2 Multibox (1 # 4) 2 1 1 squared_error
                   squared_kernel abs_kernel stable_argsort_float stable_argsort_long
                   stable_argsort_float_length stable_argsort_long_length 2 3 gt gt_deltas logits
                   deltas eq_refl gt_shape eq_refl eq_refl)).
Defined.

Lemma C2_witness :
  Z.of_nat (count_true (nth 0 (view_rows 2 (ssd_hard_negative 1 2 logits (flatten gt))) []))
  = Z.min (1 * Z.of_nat (count_true (foreground_idxs 2 (nth 0 gt []))))
          (Z.of_nat (count_true (background_idxs 2 (nth 0 gt [])))).
Proof.
  refine (proj1 (@C2_hard_negative_count 2 1 squared_error stable_argsort_float stable_argsort_long
                   stable_argsort_float_spec stable_argsort_long_spec 2 3 0 gt logits
                   _ gt_shape eq_refl eq_refl _ _)).
  - discriminate.
  - repeat constructor.
  - intros [|[|[|[|j]]]]; vm_compute; intros H; try discriminate H; reflexivity.
Defined.

Lemma C3_witness :
  nth 2 (nth 1 (gt_classes_target logits (flatten gt)) []) 0 = 1.
Proof.
  refine (proj1 (proj2 (@C3_focal_target_one_hot 2 logits (flatten gt) 1
                          eq_refl _ eq_refl _)) 2%nat _).
  - repeat constructor.
  - split; discriminate.
  - repeat constructor.
Defined.

(** One image whose anchors are background or ignored. *)
Definition gt_empty : list (list Z) := [[2; -1; 2]]%Z.
Definition logits_empty : list (list Q) := [[0; 0; 0]; [0; 0; 0]; [0; 3; 0]].
Definition deltas_empty : list (list Q) := [[1; 1; 1; 1]; [1; 1; 1; 1]; [1; 1; 1; 1]].




Example focal_loss_without_foreground :
  loss_cls (ssd_losses Focal 3 1 gt_empty [deltas_empty] logits_empty deltas_empty) == 11
  /\ loss_cls (ssd_losses Multibox 3 1 gt_empty [deltas_empty] logits_empty deltas_empty) == 0.
Proof. split; vm_compute; reflexivity. Qed.

(** Target assignment and inference with K = 2, a score threshold of 1/4
    and two feature levels of two and one anchors. *)
Definition anchors_level : list (list Q) := [[0; 0; 1; 1]; [1; 1; 2; 2]].
Definition no_instances : instances := {| gt_boxes := []; gt_classes_of := [] |}.
Definition box_cls : list (list (list Q)) := [[[0; 0; 0]; [1; 1; 1]]; [[2; 2; 2]]].
Definition box_delta : list (list (list Q)) :=
  [[[0; 0; 0; 0]; [0; 0; 0; 0]]; [[0; 0; 0; 0]]].
Definition anchors : list (list (list Q)) := [anchors_level; [[0; 0; 4; 4]]].
Definition result : detections :=
  {| pred_boxes := [[0; 0; 1; 1]; [0; 0; 1; 1]];
     scores := [1 # 3; 1 # 3];
     pred_classes := [0; 1]%nat |}.

Definition ssd_inference_single_image :=
  inference_single_image 2 (1 # 4) 3 (1 # 2) 2 softmax_equal_logits stable_sort_descending
                         keep_anchor keep_all.

Example inference_result :
  ssd_inference_single_image box_cls box_delta anchors = Some result.
Proof. vm_compute. reflexivity. Defined.

Lemma zero_iou_shape boxes1 boxes2 : ncols (zero_iou boxes1 boxes2) = length boxes2.
Proof. reflexivity. Qed.

Lemma background_matcher_shape mq : length (fst (background_matcher mq)) = ncols mq.
Proof. apply repeat_length. Qed.

Lemma C6_witness :
  get_ground_truth_image 2 zero_iou background_matcher anchor_deltas
                         anchors_level no_instances
  = Some (repeat (K 2) 2, [[0; 0; 0; 0]; [0; 0; 0; 0]]).
Proof.
  refine (proj1 (@C6_no_ground_truth 2 Multibox (1 # 4) 2 3 1 squared_error
                   squared_kernel abs_kernel stable_argsort_float stable_argsort_long
                   zero_iou background_matcher anchor_deltas
                   zero_iou_shape background_matcher_shape
                   anchors_level no_instances eq_refl)).
Defined.


Lemma C8_witness :
  Forall (fun s => (0 <= s <= 1) /\ 1 # 4 < s) [1 # 3; 1 # 3].
Proof.
  refine (proj2 (proj2 (@C8_score_filter 2 (1 # 4) 3 (1 # 2) 2 softmax_equal_logits
                          stable_sort_descending keep_anchor keep_all
                          softmax_equal_logits_range
                          box_cls box_delta anchors result inference_result))).
Defined.

Lemma C9_witness :
  (count_true (ssd_hard_negative 1 2 logits (flatten gt))
   <= count_true (ssd_hard_negative 3 2 logits (flatten gt)))%nat.
Proof.
  refine (proj1 (proj2 (@C9_ratio_monotone 2 1 3 squared_error stable_argsort_float
                          stable_argsort_long 2 logits gt _))).
  discriminate.
Defined.


(** The anchor 1 of the batch [gt] is BACKGROUND; its Focal target has K + 1
    = 3 entries and the entry of column K = 2 is 1. *)
Lemma C3_counterexample :
  nth 1 (background_idxs 2 (flatten gt)) false = true
  /\ nth 1 (gt_classes_target logits (flatten gt)) [] = [0; 0; 1].
Proof. split; reflexivity. Qed.



(** ** More concrete inputs *)

(** An image with one instance of class 1 and three anchors, and a matcher
    that labels them 1, 0 and -1 and matches all of them to instance 0. *)
Definition anchors3 : list (list Q) := [[0; 0; 1; 1]; [1; 1; 2; 2]; [5; 5; 6; 6]].
Definition one_instance : instances :=
  {| gt_boxes := [[0; 0; 1; 1]]; gt_classes_of := [1%Z] |}.
Definition labelled_matcher (mq : matrix) : list nat * list Z :=
  (repeat 0%nat (ncols mq),
   firstn (ncols mq) [1; 0; -1]%Z ++ repeat 0%Z (ncols mq - 3)).

Example labelled_targets :
  get_ground_truth_image 2 zero_iou labelled_matcher anchor_deltas anchors3 one_instance
  = Some ([1; 2; -1]%Z, [[0; 0; 0; 0]; [0; 0; 0; 0]; [0; 0; 0; 0]]).
Proof. reflexivity. Defined.

Lemma X1_witness :
  length [1; 2; -1]%Z
  = length (fst (labelled_matcher (zero_iou (gt_boxes one_instance) anchors3))).
Proof.
  refine (proj1 (@X1_class_targets 2 zero_iou labelled_matcher anchor_deltas anchors3
                   one_instance _ _ labelled_targets _ eq_refl)).
  repeat constructor.
Defined.

Lemma X2_witness :
  nth 0 (valid_idxs [1; 2; -1]%Z) false
  = negb (nth 0 (snd (labelled_matcher (zero_iou (gt_boxes one_instance) anchors3))) 0
          =? -1)%Z.
Proof.
  refine (proj1 (@X2_masks_are_labels 2 zero_iou labelled_matcher anchor_deltas anchors3
                   one_instance _ _ labelled_targets _ _ eq_refl 0%nat _)).
  - repeat constructor.
  - repeat constructor; discriminate.
  - repeat constructor.
Defined.

(** The logits of the batch with other logits at its ignored anchor, and
    the deltas with other deltas at a background anchor. *)
Definition logits' : list (list Q) :=
  [[2; 0; 0]; [1; 0; 0]; [0; 0; 3]; [0; 1; 0]; [9; 9; 9]; [0; 2; 0]].
Definition deltas' : list (list Q) :=
  [[0; 1; 2; 1]; [7; 7; 7; 7]; [5; 5; 5; 5]; [5; 5; 5; 5]; [5; 5; 5; 5]; [2; 2; 2; 0]].

Lemma X4_witness :
  loss_cls (ssd_losses Focal 1 2 gt gt_deltas logits deltas)
  = loss_cls (ssd_losses Focal 1 2 gt gt_deltas logits' deltas).
Proof.
  refine (@X4_loss_cls_ignores 2 Focal (1 # 4) 2 1 1 squared_error squared_kernel
            abs_kernel stable_argsort_float stable_argsort_long 2 gt gt_deltas
            logits logits' deltas eq_refl eq_refl _).
  intros [|[|[|[|[|[|i]]]]]] H; try reflexivity; discriminate H.
Defined.

Lemma X5_witness :
  loss_box_reg (ssd_losses Multibox 1 2 gt gt_deltas logits deltas)
  = loss_box_reg (ssd_losses Multibox 1 2 gt gt_deltas logits deltas').
Proof.
  refine (@X5_loss_box_reg_foreground 2 Multibox (1 # 4) 2 1 1 squared_error
            squared_kernel abs_kernel stable_argsort_float stable_argsort_long 2 2 gt
            gt_deltas gt_deltas logits logits deltas deltas'
            eq_refl eq_refl eq_refl eq_refl _).
  intros [|[|[|[|[|[|i]]]]]] H; split; try reflexivity; try discriminate H;
    simpl in H; destruct i; discriminate H.
Defined.

Lemma X6_witness :
  (Z.of_nat (count_true (nth 0 (view_rows 2 (ssd_hard_negative 1 2 logits (flatten gt))) []))
   <= Z.max 0 (1 * Z.of_nat (count_true (foreground_idxs 2 (nth 0 gt [])))))%Z.
Proof.
  refine (proj1 (@X6_hard_negative_bound 2 1 squared_error stable_argsort_float
                   stable_argsort_long stable_argsort_float_spec stable_argsort_long_spec
                   2 3 0 gt logits gt_shape eq_refl eq_refl _)).
  repeat constructor.
Defined.

Lemma X7_witness :
  nth 1 (nth 0 (view_rows 2 (per_anchor_ce squared_error logits (flatten gt))) []) 0
  <= nth 2 (nth 0 (view_rows 2 (per_anchor_ce squared_error logits (flatten gt))) []) 0.
Proof.
  refine (@X7_hardest_negatives 2 1 squared_error stable_argsort_float
            stable_argsort_long stable_argsort_float_spec stable_argsort_long_spec
            2 3 0 gt logits gt_shape eq_refl eq_refl _ 2%nat 1%nat _ _ _).
  - repeat constructor.
  - vm_compute. reflexivity.
  - vm_compute. reflexivity.
  - vm_compute. reflexivity.
Defined.

Lemma X8_witness :
  loss_cls (ssd_losses Multibox 1 2 gt gt_deltas logits deltas)
  == (Qsum (masked_select (foreground_idxs 2 (flatten gt))
                          (per_anchor_ce squared_error logits (flatten gt)))
      + Qsum (masked_select (ssd_hard_negative 1 2 logits (flatten gt))
                            (per_anchor_ce squared_error logits (flatten gt))))
     / max1 (count_true (foreground_idxs 2 (flatten gt))).
Proof.
  refine (@X8_multibox_two_terms 2 Multibox (1 # 4) 2 1 1 squared_error squared_kernel
            abs_kernel stable_argsort_float stable_argsort_long
            stable_argsort_float_length stable_argsort_long_length 2 3 gt gt_deltas
            logits deltas eq_refl gt_shape eq_refl eq_refl).
Defined.

Lemma X9_witness : (length [1 # 3; 1 # 3] <= 2)%nat.
Proof.
  refine (proj1 (@X9_detection_count 2 (1 # 4) 3 (1 # 2) 2 softmax_equal_logits
                   stable_sort_descending keep_anchor keep_all box_cls box_delta
                   anchors result inference_result)).
Defined.

Lemma box_cls_shapes : level_shapes 2 box_cls box_delta anchors.
Proof. simpl. repeat split; repeat constructor. Defined.

Lemma X10_witness :
  Forall2 (fun score class =>
             exists l a,
               (l < length box_cls)%nat /\ (a < length (nth l box_cls []))%nat
               /\ (class < 2)%nat
               /\ score = nth class (softmax_equal_logits (nth a (nth l box_cls []) [])) 0
               /\ 1 # 4 < score)
          [1 # 3; 1 # 3] [0; 1]%nat.
Proof.
  refine (@X10_detection_sound 2 (1 # 4) 3 (1 # 2) 2 softmax_equal_logits
            stable_sort_descending keep_anchor keep_all stable_sort_descending_spec
            softmax_equal_logits_length box_cls box_delta anchors result _
            box_cls_shapes inference_result).
  repeat constructor.
Defined.

(** A head output of shape (1, 2 x 2, 1, 2): the entry at channel c and
    column w is 10 c + w. *)
Definition head_cls : tensor4 :=
  {| dim_N := 1; dim_C := 4; dim_H := 1; dim_W := 2;
     entries := [[[[0; 1]]; [[10; 11]]; [[20; 21]]; [[30; 31]]]] |}.

Example head_cls_permuted :
  permute_to_N_HWA_K head_cls 2 = [[[0; 10]; [20; 30]; [1; 11]; [21; 31]]].
Proof. reflexivity. Qed.

Lemma head_cls_shape : tensor4_shape head_cls.
Proof. unfold tensor4_shape. simpl. repeat (split || constructor). Defined.

Lemma X11_witness : length (permute_to_N_HWA_K head_cls 2) = 1%nat.
Proof.
  refine (proj1 (@X11_permute_layout head_cls 2 2 head_cls_shape eq_refl _)).
  repeat constructor.
Defined.

Lemma X12_witness :
  length (fst (permute_all_cls_and_box_to_N_HWA_K_and_concat [head_cls; head_cls]
                 [head_cls] 2))
  = (1 * list_sum (map (level_anchors 2) [head_cls; head_cls]))%nat.
Proof.
  refine (proj1 (@X12_concat_image_major [head_cls; head_cls] [head_cls] 2 1 _ _ _ _ _)).
  - discriminate.
  - discriminate.
  - repeat constructor.
  - repeat constructor; apply head_cls_shape.
  - repeat constructor; apply head_cls_shape.
Defined.

Lemma squared_error_nonneg row c : 0 <= squared_error row c.
Proof.
  unfold squared_error.
  assert (H : 0 <= Qsum (map2 (fun x (j : nat) =>
                let t := if (Z.of_nat j =? c)%Z then 1 else 0 in (x - t) * (x - t))
                row (seq 0 (length row)))).
  { apply Qsum_nonneg. generalize (seq 0 (length row)) as js.
    induction row as [|x row IH]; intros [|j js]; simpl; constructor; auto.
    set (d := x - (if (Z.of_nat j =? c)%Z then 1 else 0)).
    unfold Qle, Qmult. simpl. rewrite Z.mul_1_r. apply Z.square_nonneg. }
  rewrite <- (Qplus_0_r 0). apply Qplus_le_compat; [discriminate | exact H].
Qed.

Lemma X14_witness :
  loss_cls (ssd_losses Multibox 1 2 gt gt_deltas logits deltas)
  <= loss_cls (ssd_losses Multibox 3 2 gt gt_deltas logits deltas).
Proof.
  refine (@X14_loss_monotone 2 1 3 (1 # 4) 2 1 squared_error squared_kernel abs_kernel
            stable_argsort_float stable_argsort_long 2 3 gt gt_deltas logits deltas
            stable_argsort_float_length stable_argsort_long_length squared_error_nonneg
            _ gt_shape eq_refl eq_refl).
  discriminate.
Defined.

Example level_result :
  inference_level 2 (1 # 4) 3 softmax_equal_logits stable_sort_descending keep_anchor
                  [[0; 0; 0]; [1; 1; 1]] [[0; 0; 0; 0]; [0; 0; 0; 0]] anchors_level
  = Some ([[0; 0; 1; 1]; [0; 0; 1; 1]], [1 # 3; 1 # 3], [0; 1]%nat).
Proof. vm_compute. reflexivity. Defined.

Lemma X15_witness : StronglySorted descending [1 # 3; 1 # 3].
Proof.
  refine (proj2 (@X15_topk_threshold_commute 2 (1 # 4) 3 softmax_equal_logits
                   stable_sort_descending keep_anchor stable_sort_descending_spec
                   [[0; 0; 0]; [1; 1; 1]] [[0; 0; 0; 0]; [0; 0; 0; 0]] anchors_level
                   _ _ _ level_result)).
Defined.


(** The first image of the batch, moved to the end of a batch of three. *)
Definition gt_moved : list (list Z) := [[2; 2; 2]; [-1; 0; 1]; [0; 2; 2]]%Z.
Definition logits_moved : list (list Q) :=
  [[7; 0; 0]; [0; 7; 0]; [0; 0; 7]; [1; 1; 1]; [0; 4; 0]; [4; 0; 0];
   [2; 0; 0]; [1; 0; 0]; [0; 0; 3]].

Lemma X16_witness :
  nth 0 (view_rows 2 (ssd_hard_negative 1 2 logits (flatten gt))) []
  = nth 2 (view_rows 3 (ssd_hard_negative 1 3 logits_moved (flatten gt_moved))) [].
Proof.
  refine (@X16_mining_per_image 2 1 squared_error stable_argsort_float
            stable_argsort_long stable_argsort_float_spec stable_argsort_long_spec
            2 3 3 0 2 gt gt_moved logits logits_moved
            gt_shape eq_refl eq_refl _ _ eq_refl eq_refl _ eq_refl eq_refl).
  - repeat constructor.
  - repeat constructor.
  - repeat constructor.
Defined.

End Examples.
